(** * Text search, replace and statistics tools of the Google Docs MCP server

    A shallow embedding of the search tools registered by
    [registerSearchTools] (src/tools/media.ts: [find_and_replace],
    [search_text_in_document], [get_word_count]) and of the sanitizers of
    src/utils/validation.ts ([sanitizeText], [sanitizeSearchQuery]).

    JavaScript strings are sequences of UTF-16 code units: they are lists
    of [N] here, and every [.length], [indexOf] and [substring] counts code
    units, as the engine does. *)

From Stdlib Require Import List Arith NArith ZArith QArith Lia Lqa Bool.
From Stdlib Require Import QArith.Qround.
From Stdlib Require Strings.String Strings.Ascii.
From Stdlib Require Import Numbers.DecimalString.
From Stdlib Require Import Sorting.Sorted.
Import ListNotations.
Import String.StringSyntax.
Delimit Scope string_scope with string.
Close Scope Q_scope.

(** ** JavaScript strings *)

Module Js.

Definition jsstring := list N.

(** A string literal of the source (ASCII only). *)
Definition lit (s : String.string) : jsstring :=
  map (fun a => N.of_nat (Ascii.nat_of_ascii a)) (String.list_ascii_of_string s).

Arguments lit s%_string.

(** Template interpolation of a number: [`${n}`]. *)
Definition num (n : nat) : jsstring :=
  lit (NilEmpty.string_of_uint (Nat.to_uint n)).

(** [startsWith]: [p] is a prefix of [s]. *)
Fixpoint prefixb (p s : jsstring) : bool :=
  match p, s with
  | [], _ => true
  | _ :: _, [] => false
  | a :: p', b :: s' => N.eqb a b && prefixb p' s'
  end.

(** Scan [s] (the text from offset [k] on) for the first occurrence of
    [needle]; the offset reported is relative to the whole text. *)
Fixpoint find_from (s needle : jsstring) (k : nat) : option nat :=
  if prefixb needle s then Some k
  else match s with
       | [] => None
       | _ :: s' => find_from s' needle (S k)
       end.

(** [s.indexOf(needle, position)]: the position is clamped to
    [0 .. s.length]; [None] stands for the result [-1]. *)
Definition indexOf (s needle : jsstring) (position : nat) : option nat :=
  let p := Nat.min position (length s) in
  find_from (skipn p s) needle p.

(** [s.substring(a, b)]: both ends are clamped to the length and swapped
    when [a > b]. *)
Definition substring (s : jsstring) (a b : nat) : jsstring :=
  let a' := Nat.min a (length s) in
  let b' := Nat.min b (length s) in
  let from := Nat.min a' b' in
  let to := Nat.max a' b' in
  firstn (to - from) (skipn from s).

(** [s.slice(a, b)] for [0 <= a <= b]: the range [a, b) of [s]. *)
Definition slice (s : jsstring) (a b : nat) : jsstring :=
  firstn (b - a) (skipn a s).

(** WhiteSpace and LineTerminator code points of ECMAScript: the set
    matched by the regular expression class [\s] and stripped by [trim]. *)
Definition is_space (c : N) : bool :=
  ((9 <=? c) && (c <=? 13) || (c =? 32) || (c =? 160) || (c =? 5760)
   || (8192 <=? c) && (c <=? 8202) || (c =? 8232) || (c =? 8233)
   || (c =? 8239) || (c =? 8287) || (c =? 12288) || (c =? 65279))%N.

Fixpoint drop_space (s : jsstring) : jsstring :=
  match s with
  | [] => []
  | c :: s' => if is_space c then drop_space s' else s
  end.

(** [s.trim()] *)
Definition trim (s : jsstring) : jsstring :=
  rev (drop_space (rev (drop_space s))).

(** [s.split(/\s+/)]: [in_sep] records that the scan is inside a run of
    white space, [cur] is the piece being collected. *)
Fixpoint split_go (in_sep : bool) (cur s : jsstring) : list jsstring :=
  match s with
  | [] => [cur]
  | c :: s' =>
      if is_space c
      then if in_sep then split_go true cur s'
           else cur :: split_go true [] s'
      else split_go false (cur ++ [c]) s'
  end.

Definition split_space (s : jsstring) : list jsstring := split_go false [] s.

(** A fragment of [String.prototype.toLowerCase] (Unicode default case
    conversion): Basic Latin, Latin-1 Supplement, and U+0130 LATIN CAPITAL
    LETTER I WITH DOT ABOVE, whose lower case is the two code units
    U+0069 U+0307 (SpecialCasing.txt).  Code units outside the fragment
    are passed through. *)
Definition lower_unit (c : N) : list N :=
  (if (65 <=? c) && (c <=? 90) then [c + 32]
   else if (192 <=? c) && (c <=? 222) && negb (c =? 215) then [c + 32]
   else if c =? 304 then [105; 775]
   else [c])%N.

Definition toLowerCase_latin (s : jsstring) : jsstring :=
  flat_map lower_unit s.

(** On strings whose code units are all below U+0300 the normalization
    form NFC is the identity; this is [String.prototype.normalize('NFC')]
    on that fragment. *)
Definition normalize_latin (s : jsstring) : jsstring := s.

End Js.

Import Js.

(** ** The document returned by [docs.documents.get] *)

Module Doc.

(** [elem.textRun]: the [content] may be absent. *)
Record TextRun := { content : option jsstring }.

(** An element of [paragraph.elements]: a text run, or something else
    (inline object, page break, ...) that carries no text but occupies
    document indices. *)
Record ParagraphElement := {
  startIndex : option nat;
  endIndex : option nat;
  textRun : option TextRun
}.

Record Paragraph := { elements : list ParagraphElement }.

(** An element of [body.content]: a paragraph, or a table, section break
    and the like ([paragraph] absent). *)
Record StructuralElement := { paragraph : option Paragraph }.

Definition Body := list StructuralElement.

(** [elem.textRun.content || ''], nothing when [elem.textRun] is absent. *)
Definition run_content (elem : ParagraphElement) : jsstring :=
  match textRun elem with
  | Some tr => match content tr with Some c => c | None => [] end
  | None => []
  end.

Definition paragraph_text (p : Paragraph) : jsstring :=
  flat_map run_content (elements p).

(** The extraction loop shared by the three tools:
    [for (const element of content) if (element.paragraph)
       for (const elem of element.paragraph.elements)
         if (elem.textRun) documentText += elem.textRun.content || ''] *)
Definition documentText (content : Body) : jsstring :=
  flat_map (fun element =>
              match paragraph element with
              | Some p => paragraph_text p
              | None => []
              end) content.

(** [paragraphCount]: the elements of the body that are paragraphs. *)
Definition paragraphCount (content : Body) : nat :=
  length (filter (fun element =>
                    match paragraph element with Some _ => true | None => false end)
                 content).

End Doc.

(** ** JavaScript numbers *)

Module Num.

(** A number as comparisons and [Number.isInteger] see it: a finite value
    (every double is a rational), NaN, or an infinity. *)
Inductive Number : Type :=
| Finite (q : Q)
| NaN
| PosInfinity
| NegInfinity.

Definition of_Z (z : Z) : Number := Finite (inject_Z z).

(** A length or a count as a number. *)
Definition of_nat (n : nat) : Number := of_Z (Z.of_nat n).

(** The number as a condition: zero and NaN are falsy. *)
Definition truthy (n : Number) : bool :=
  match n with
  | Finite q => negb (Qeq_bool q (inject_Z 0))
  | NaN => false
  | _ => true
  end.

(** [Number.isInteger(n)] *)
Definition isInteger (n : Number) : bool :=
  match n with
  | Finite q => (Qnum q mod Zpos (Qden q) =? 0)%Z
  | _ => false
  end.

(** [Number.isFinite(n)] *)
Definition isFinite (n : Number) : bool :=
  match n with
  | Finite _ => true
  | _ => false
  end.

(** [a < b]: false as soon as one side is NaN. *)
Definition ltb (a b : Number) : bool :=
  match a, b with
  | NaN, _ | _, NaN => false
  | Finite x, Finite y => negb (Qle_bool y x)
  | PosInfinity, _ => false
  | _, NegInfinity => false
  | _, PosInfinity => true
  | NegInfinity, _ => true
  end.

(** [a <= b] *)
Definition leb (a b : Number) : bool :=
  match a, b with
  | NaN, _ | _, NaN => false
  | Finite x, Finite y => Qle_bool x y
  | NegInfinity, _ => true
  | _, PosInfinity => true
  | PosInfinity, _ => false
  | _, NegInfinity => false
  end.

(** [a > b] and [a >= b] *)
Definition gtb (a b : Number) : bool := ltb b a.
Definition geb (a b : Number) : bool := leb b a.

(** [a - b] *)
Definition sub (a b : Number) : Number :=
  match a, b with
  | NaN, _ | _, NaN => NaN
  | Finite x, Finite y => Finite (x - y)
  | PosInfinity, PosInfinity => NaN
  | NegInfinity, NegInfinity => NaN
  | PosInfinity, _ => PosInfinity
  | NegInfinity, _ => NegInfinity
  | Finite _, PosInfinity => NegInfinity
  | Finite _, NegInfinity => PosInfinity
  end.

(** An argument declared [number] as a function finds it at run time. *)
Inductive Arg : Type :=
| Number_ (n : Number)
| NotNumber.

End Num.

(** ** Calls to the Google API *)

(** A promise awaited by a tool resolves to a value or rejects with an
    error, whose [message] the tool's [catch] block reports. *)
Inductive Reply (A : Type) : Type :=
| Resolved (a : A)
| Rejected (message : jsstring).

Arguments Resolved {A} a.
Arguments Rejected {A} message.

(** [doc.data.body?.content || []] *)
Definition body_content (body : option Doc.Body) : Doc.Body :=
  match body with Some c => c | None => [] end.

(** The entries of the [requests] array handed to [documents.batchUpdate]. *)
Inductive Request : Type :=
| deleteContentRange (startIndex endIndex : nat)
| insertText (index : nat) (text : jsstring).

(** What a tool handler has done when it returns: it has called
    [batchUpdate] with a request body or not at all, and it hands a result
    to the caller.  Every handler wraps its body in [try]/[catch], so what
    is thrown inside, by the API or by the engine, comes back as an error
    result. *)
Inductive Outcome (R : Type) : Type :=
| Returned (sent : option (list Request)) (result : R).

Arguments Returned {R} sent result.

(** The number of entries an array of the engine can take, and the message
    of the RangeError that [Array.prototype.push] throws when the array is
    full. *)
Definition MAX_ARRAY_LENGTH : N := 4294967295.

Definition INVALID_ARRAY_LENGTH : jsstring := lit "Invalid array length".

Definition QUOTE : jsstring := [34%N].
Definition NEWLINE : jsstring := [10%N].

(** ** [find_and_replace] *)

Module Replace.

Record Result := {
  text : jsstring;
  success : bool;
  replacementsCount : nat;
  message : jsstring;
  isError : bool
}.

(** [while ((index = docText.indexOf(searchText, index)) !== -1)
      { matches.push(index); index += searchText.length; }]
    [fuel] is the number of iterations the [matches] array allows: one
    more than the number of entries it can take ([MAX_ARRAY_LENGTH] in
    the engine).
    [Some] is the array with which the loop exits; [None] says that the
    loop has made [fuel] iterations without exiting, so that the array is
    full and [matches.push] throws its RangeError. *)
Fixpoint scan (fuel : nat) (docText searchText : jsstring)
         (index : nat) (matches : list nat) : option (list nat) :=
  match fuel with
  | 0 => None
  | S fuel' =>
      match indexOf docText searchText index with
      | None => Some matches
      | Some i => scan fuel' docText searchText (i + length searchText) (matches ++ [i])
      end
  end.

(** [matches.sort((a, b) => b - a)]: numeric, descending. *)
Fixpoint insert_desc (x : nat) (l : list nat) : list nat :=
  match l with
  | [] => [x]
  | y :: l' => if y <? x then x :: l else y :: insert_desc x l'
  end.

Definition sort_desc (l : list nat) : list nat := fold_right insert_desc [] l.

(** The two requests pushed for one match. *)
Definition edit_pair (findText replaceText : jsstring) (matchIndex : nat)
  : list Request :=
  [ deleteContentRange matchIndex (matchIndex + length findText);
    insertText matchIndex replaceText ].

(** [for (const matchIndex of sortedMatches) {
       if (!replaceAll && replacementsCount >= 1) break;
       requests.push({deleteContentRange ...}); requests.push({insertText ...});
       replacementsCount++; }] *)
Fixpoint plan (sortedMatches : list nat) (findText replaceText : jsstring)
         (replaceAll : bool) (requests : list Request) (replacementsCount : nat)
  : list Request * nat :=
  match sortedMatches with
  | [] => (requests, replacementsCount)
  | matchIndex :: rest =>
      if negb replaceAll && (1 <=? replacementsCount)
      then (requests, replacementsCount)
      else plan rest findText replaceText replaceAll
                (requests ++ edit_pair findText replaceText matchIndex)
                (S replacementsCount)
  end.

(** [occurrence${n !== 1 ? 's' : ''}] *)
Definition occurrences (n : nat) : jsstring :=
  lit "occurrence" ++ (if n =? 1 then [] else lit "s").

Definition no_match (findText : jsstring) : Result :=
  {| text := lit "No matches found for " ++ QUOTE ++ findText ++ QUOTE;
     success := false;
     replacementsCount := 0;
     message := lit "No matches found";
     isError := false |}.

Definition replaced (findText replaceText : jsstring) (n : nat) : Result :=
  {| text := lit "Replaced " ++ num n ++ lit " " ++ occurrences n
             ++ lit " of " ++ QUOTE ++ findText ++ QUOTE
             ++ lit " with " ++ QUOTE ++ replaceText ++ QUOTE;
     success := true;
     replacementsCount := n;
     message := lit "Replaced " ++ num n ++ lit " " ++ occurrences n;
     isError := false |}.

Definition failed (error_message : jsstring) : Result :=
  {| text := lit "Error in find and replace: " ++ error_message;
     success := false;
     replacementsCount := 0;
     message := lit "Error: " ++ error_message;
     isError := true |}.

Section Handler.

(** [String.prototype.toLowerCase] of the engine. *)
Variable toLowerCase : jsstring -> jsstring.

(** [searchText] and [docText]: the needle and the haystack of the scan. *)
Definition needle (findText : jsstring) (matchCase : bool) : jsstring :=
  if matchCase then findText else toLowerCase findText.

Definition haystack (documentText : jsstring) (matchCase : bool) : jsstring :=
  if matchCase then documentText else toLowerCase documentText.

(** The offsets collected by the scan loop over the extracted text, when
    the loop exits. *)
Definition find_matches (fuel : nat) (documentText findText : jsstring)
           (matchCase : bool) : option (list nat) :=
  scan fuel (haystack documentText matchCase) (needle findText matchCase) 0 [].

(** The handler of the tool.  [doc] is the reply of [documents.get],
    [batchUpdate] the reply of [documents.batchUpdate] to a request body.
    The [catch] block reports what is thrown inside the [try]: a rejection
    of either call, or the RangeError of [matches.push]. *)
Definition find_and_replace (fuel : nat) (doc : Reply (option Doc.Body))
           (findText replaceText : jsstring) (matchCase replaceAll : bool)
           (batchUpdate : list Request -> Reply unit) : Outcome Result :=
  match doc with
  | Rejected e => Returned None (failed e)
  | Resolved body =>
      let content := body_content body in
      match find_matches fuel (Doc.documentText content) findText matchCase with
      | None => Returned None (failed INVALID_ARRAY_LENGTH)
      | Some matches =>
          if length matches =? 0 then Returned None (no_match findText)
          else
            let sortedMatches := sort_desc matches in
            let '(requests, replacementsCount) :=
              plan sortedMatches findText replaceText replaceAll [] 0 in
            match batchUpdate requests with
            | Rejected e => Returned (Some requests) (failed e)
            | Resolved _ =>
                Returned (Some requests) (replaced findText replaceText replacementsCount)
            end
      end
  end.

End Handler.

End Replace.

(** ** [search_text_in_document] *)

Module Find.

Record Match := {
  startIndex : nat;
  endIndex : nat;
  context : jsstring
}.

Record Result := {
  text : jsstring;
  success : bool;
  matches : list Match;
  totalMatches : nat;
  message : jsstring;
  isError : bool
}.

(** [maxResults || 10]: the schema takes any number ([z.number()]); zero
    and NaN are falsy. *)
Definition limit (maxResults : Num.Number) : Num.Number :=
  if Num.truthy maxResults then maxResults else Num.of_Z 10.

(** The match pushed for an occurrence found at [index]: the range is
    [index, index + searchText.length), the context is cut from the
    original [documentText]. *)
Definition match_at (documentText searchText : jsstring) (index : nat) : Match :=
  let contextStart := Nat.max 0 (index - 20) in
  let contextEnd := Nat.min (length documentText) (index + length searchText + 20) in
  {| startIndex := index;
     endIndex := index + length searchText;
     context := substring documentText contextStart contextEnd |}.

(** [while ((index = docTextLower.indexOf(searchTextLower, index)) !== -1
            && matches.length < (maxResults || 10))
      { ...; matches.push({...}); index += searchText.length; }]
    [fuel] is the number of iterations the [matches] array allows, as in
    [Replace.scan]: [None] says that [matches.push] throws. *)
Fixpoint scan (fuel : nat) (documentText docTextLower searchTextLower searchText : jsstring)
         (maxResults : Num.Number) (index : nat) (matches : list Match)
  : option (list Match) :=
  match fuel with
  | 0 => None
  | S fuel' =>
      match indexOf docTextLower searchTextLower index with
      | None => Some matches
      | Some i =>
          if Num.ltb (Num.of_nat (length matches)) (limit maxResults)
          then scan fuel' documentText docTextLower searchTextLower searchText maxResults
                    (i + length searchText)
                    (matches ++ [match_at documentText searchText i])
          else Some matches
      end
  end.

(** [l.join(sep)] *)
Fixpoint join (sep : jsstring) (l : list jsstring) : jsstring :=
  match l with
  | [] => []
  | [x] => x
  | x :: l' => x ++ sep ++ join sep l'
  end.

(** [match${n !== 1 ? 'es' : ''}] *)
Definition matches_word (n : nat) : jsstring :=
  lit "match" ++ (if n =? 1 then [] else lit "es").

(** One line of the listing; [i] is the array index of the match. *)
Definition match_line (i : nat) (m : Match) : jsstring :=
  num (i + 1) ++ lit ". Position " ++ num (startIndex m) ++ lit "-" ++ num (endIndex m)
  ++ lit ": " ++ QUOTE ++ lit "..." ++ context m ++ lit "..." ++ QUOTE.

Fixpoint match_lines (i : nat) (ms : list Match) : list jsstring :=
  match ms with
  | [] => []
  | m :: ms' => match_line i m :: match_lines (S i) ms'
  end.

Definition found (searchText : jsstring) (ms : list Match) : Result :=
  let n := length ms in
  {| text := lit "Found " ++ num n ++ lit " " ++ matches_word n ++ lit " for "
             ++ QUOTE ++ searchText ++ QUOTE
             ++ (if 0 <? n then lit ":" ++ NEWLINE ++ join NEWLINE (match_lines 0 ms)
                 else []);
     success := true;
     matches := ms;
     totalMatches := n;
     message := lit "Found " ++ num n ++ lit " " ++ matches_word n;
     isError := false |}.

Definition failed (error_message : jsstring) : Result :=
  {| text := lit "Error searching document: " ++ error_message;
     success := false;
     matches := [];
     totalMatches := 0;
     message := lit "Error: " ++ error_message;
     isError := true |}.

Section Handler.

Variable toLowerCase : jsstring -> jsstring.

(** The matches collected by the scan loop, when the loop exits. *)
Definition find_matches (fuel : nat) (documentText searchText : jsstring)
           (matchCase : bool) (maxResults : Num.Number) : option (list Match) :=
  let searchTextLower := if matchCase then searchText else toLowerCase searchText in
  let docTextLower := if matchCase then documentText else toLowerCase documentText in
  scan fuel documentText docTextLower searchTextLower searchText maxResults 0 [].

(** The handler of the tool; it calls [documents.get] only.  The [catch]
    block reports what is thrown inside the [try]: a rejection of the
    call, or the RangeError of [matches.push]. *)
Definition search_text_in_document (fuel : nat) (doc : Reply (option Doc.Body))
           (searchText : jsstring) (matchCase : bool) (maxResults : Num.Number)
  : Outcome Result :=
  match doc with
  | Rejected e => Returned None (failed e)
  | Resolved body =>
      let documentText := Doc.documentText (body_content body) in
      match find_matches fuel documentText searchText matchCase maxResults with
      | None => Returned None (failed INVALID_ARRAY_LENGTH)
      | Some ms => Returned None (found searchText ms)
      end
  end.

End Handler.

End Find.

(** ** [get_word_count] *)

Module Stats.

Record Result := {
  text : jsstring;
  success : bool;
  wordCount : nat;
  characterCount : nat;
  paragraphCount : nat;
  message : jsstring;
  isError : bool
}.

(** [documentText.trim().split(/\s+/).filter(word => word.length > 0).length] *)
Definition count_words (documentText : jsstring) : nat :=
  length (filter (fun word => 0 <? length word) (split_space (trim documentText))).

(** [documentText.replace(/\s/g, '').length] *)
Definition count_no_spaces (documentText : jsstring) : nat :=
  length (filter (fun c => negb (is_space c)) documentText).

Definition BULLET : jsstring := [8226%N].

Definition counted (words chars chars_no_spaces paragraphs : nat) : Result :=
  {| text := lit "Document Statistics:" ++ NEWLINE
             ++ BULLET ++ lit " Words: " ++ num words ++ NEWLINE
             ++ BULLET ++ lit " Characters: " ++ num chars ++ NEWLINE
             ++ BULLET ++ lit " Characters (no spaces): " ++ num chars_no_spaces ++ NEWLINE
             ++ BULLET ++ lit " Paragraphs: " ++ num paragraphs;
     success := true;
     wordCount := words;
     characterCount := chars;
     paragraphCount := paragraphs;
     message := lit "Document has " ++ num words ++ lit " words, " ++ num chars
                ++ lit " characters, and " ++ num paragraphs ++ lit " paragraphs";
     isError := false |}.

Definition failed (error_message : jsstring) : Result :=
  {| text := lit "Error getting word count: " ++ error_message;
     success := false;
     wordCount := 0;
     characterCount := 0;
     paragraphCount := 0;
     message := lit "Error: " ++ error_message;
     isError := true |}.

Definition get_word_count (doc : Reply (option Doc.Body)) : Result :=
  match doc with
  | Rejected e => failed e
  | Resolved body =>
      let content := body_content body in
      let documentText := Doc.documentText content in
      counted (count_words documentText) (length documentText)
              (count_no_spaces documentText) (Doc.paragraphCount content)
  end.

End Stats.

(** ** Sanitizers of src/utils/validation.ts *)

Module Validation.

(** The argument as the function sees it at run time: a string, or a value
    for which [typeof x !== 'string']. *)
Inductive Value : Type :=
| Str (s : jsstring)
| NotString.

Definition NUL : N := 0.
Definition APOSTROPHE : N := 39.
Definition LESS : N := 60.
Definition GREATER : N := 62.
Definition BACKSLASH : N := 92.

(** [s.replace(/\0/g, '')] *)
Definition remove_nul (s : jsstring) : jsstring :=
  filter (fun c => negb (c =? NUL)%N) s.

(** [s.replace(/'/g, "\\'")]: the replacement is a backslash and a quote. *)
Definition escape_quotes (s : jsstring) : jsstring :=
  flat_map (fun c => if (c =? APOSTROPHE)%N then [BACKSLASH; APOSTROPHE] else [c]) s.

(** [s.replace(/[<>]/g, '')] *)
Definition remove_angles (s : jsstring) : jsstring :=
  filter (fun c => negb ((c =? LESS) || (c =? GREATER))%N) s.

Section Sanitize.

(** [String.prototype.normalize] at the form 'NFC'. *)
Variable normalize_NFC : jsstring -> jsstring.

Definition sanitizeText (text : Value) : jsstring :=
  match text with
  | NotString => []
  | Str text => normalize_NFC (remove_nul text)
  end.

Definition sanitizeSearchQuery (query : Value) : jsstring :=
  match query with
  | NotString => []
  | Str query => sanitizeText (Str (remove_angles (escape_quotes query)))
  end.

End Sanitize.

(** Every single quote of [s] is immediately preceded by a backslash. *)
Definition quotes_escaped (s : jsstring) : Prop :=
  forall i, nth_error s i = Some APOSTROPHE ->
            exists j, i = S j /\ nth_error s j = Some BACKSLASH.

(** The same, decided by one pass; [after_backslash] tells whether the
    previous code unit was a backslash. *)
Fixpoint escapedb (after_backslash : bool) (s : jsstring) : bool :=
  match s with
  | [] => true
  | c :: s' =>
      (if (c =? APOSTROPHE)%N then after_backslash else true)
      && escapedb (c =? BACKSLASH)%N s'
  end.

End Validation.

(** ** The document store applying a batch *)

Module Store.

(** The document as the service behind [documents.batchUpdate] holds it,
    in the index space of the specification (section 3): one slot for every
    index position.  A slot holds a code unit of a text run, or belongs to
    something that takes up index positions without contributing text: the
    section break at index 0, before which no text starts, an inline object,
    a table. *)
Inductive Slot : Type :=
| Text (c : N)
| Element.

Definition Document : Type := list Slot.

Definition text_slots (s : jsstring) : Document := map Text s.

(** The text of the document: what its text runs hold, in order. *)
Definition text (d : Document) : jsstring :=
  flat_map (fun slot => match slot with Text c => [c] | Element => [] end) d.

(** The edit operations of a batch are applied one after the other
    (specification, sections 3 and 6), their indices read in the index
    space of the document as the requests before them have left it; the
    batch as a whole fails when one of them is out of range.  (The service
    refuses some ranges within the document as well; where it does, no
    request of the batch is applied.) *)
Definition apply_request (r : Request) (d : Document) : option Document :=
  match r with
  | deleteContentRange s e =>
      if (s <=? e) && (e <=? length d) then Some (firstn s d ++ skipn e d) else None
  | insertText i x =>
      if i <=? length d then Some (firstn i d ++ text_slots x ++ skipn i d) else None
  end.

Fixpoint apply_requests (rs : list Request) (d : Document) : option Document :=
  match rs with
  | [] => Some d
  | r :: rs' =>
      match apply_request r d with
      | Some d' => apply_requests rs' d'
      | None => None
      end
  end.

(** The index at which a request edits the document. *)
Definition position (r : Request) : nat :=
  match r with
  | deleteContentRange s _ => s
  | insertText i _ => i
  end.

Definition slot_eqb (a b : Slot) : bool :=
  match a, b with
  | Text x, Text y => (x =? y)%N
  | Element, Element => true
  | _, _ => false
  end.

Fixpoint slots_eqb (a b : Document) : bool :=
  match a, b with
  | [], [] => true
  | x :: a', y :: b' => slot_eqb x y && slots_eqb a' b'
  | _, _ => false
  end.

Definition text_eqb (a b : jsstring) : bool := slots_eqb (text_slots a) (text_slots b).

(** The document holds the paragraph element [elem] at the indices that
    [documents.get] reports for it: the content of a text run, and no text
    for another element. *)
Definition holds_element (d : Document) (elem : Doc.ParagraphElement) : bool :=
  match Doc.startIndex elem, Doc.endIndex elem with
  | Some s, Some e =>
      match Doc.textRun elem with
      | Some _ => slots_eqb (firstn (e - s) (skipn s d))
                            (text_slots (Doc.run_content elem))
      | None => slots_eqb (firstn (e - s) (skipn s d)) (repeat Element (e - s))
      end
  | _, _ => false
  end.

(** [content] is what [documents.get] replies for the document [d]: every
    paragraph element lies in [d] where its indices say, and the text runs
    are all the text of [d]. *)
Definition read_as (d : Document) (content : Doc.Body) : bool :=
  forallb (fun element =>
             match Doc.paragraph element with
             | Some p => forallb (holds_element d) (Doc.elements p)
             | None => true
             end) content
  && text_eqb (text d) (Doc.documentText content).

End Store.

(** ** The run table of the specification *)

Module SpecIndex.

(** A run as the specification describes it (section 3): the range of a
    text payload in the flat text and in the document's index space. *)
Record TextRun := {
  flatStart : nat;
  flatEnd : nat;
  docStart : nat;
  docEnd : nat
}.

Definition index_or_0 (i : option nat) : nat :=
  match i with Some n => n | None => 0 end.

(** Section 4.1 of the specification: every text payload appends its text
    to the flat buffer and a run mapping the new flat range to the
    document-index range the payload carries. *)
Fixpoint runs_of_elements (elems : list Doc.ParagraphElement) (flat : nat)
  : list TextRun * nat :=
  match elems with
  | [] => ([], flat)
  | elem :: rest =>
      match Doc.textRun elem with
      | None => runs_of_elements rest flat
      | Some _ =>
          let flat' := flat + length (Doc.run_content elem) in
          let '(runs, final) := runs_of_elements rest flat' in
          ({| flatStart := flat; flatEnd := flat';
              docStart := index_or_0 (Doc.startIndex elem);
              docEnd := index_or_0 (Doc.endIndex elem) |} :: runs, final)
      end
  end.

Fixpoint runs_of_body (content : Doc.Body) (flat : nat) : list TextRun :=
  match content with
  | [] => []
  | element :: rest =>
      match Doc.paragraph element with
      | None => runs_of_body rest flat
      | Some p =>
          let '(runs, flat') := runs_of_elements (Doc.elements p) flat in
          runs ++ runs_of_body rest flat'
      end
  end.

Definition extract_runs (content : Doc.Body) : list TextRun := runs_of_body content 0.

(** Section 4.2 of the specification: the run containing [flat], and
    [docStart = run.docStart + (flatStart - run.flatStart)]. *)
Definition mapToDocStart (runs : list TextRun) (flat : nat) : option nat :=
  match find (fun r => (flatStart r <=? flat) && (flat <? flatEnd r)) runs with
  | Some r => Some (docStart r + (flat - flatStart r))
  | None => None
  end.

End SpecIndex.

(** ** Vocabulary of the statements *)

(** [ms] are successive results of [s.indexOf(needle, from)], the search
    being resumed [step] code units after the start of each occurrence. *)
Fixpoint resumed_chain (s needle : jsstring) (step from : nat) (ms : list nat) : Prop :=
  match ms with
  | [] => True
  | m :: rest =>
      indexOf s needle from = Some m /\ resumed_chain s needle step (m + step) rest
  end.

(** The matches a replace run plans, out of the sorted ones. *)
Definition targets (replaceAll : bool) (sortedMatches : list nat) : list nat :=
  if replaceAll then sortedMatches else firstn 1 sortedMatches.

(** Two entries of a list that follow one another. *)
Definition consecutive {A : Type} (l : list A) (a b : A) : Prop :=
  exists i, nth_error l i = Some a /\ nth_error l (S i) = Some b.

(** A document of one paragraph holding one text run, which the service
    places at the document indices [start, start + length]. *)
Definition one_run (s : jsstring) (start : nat) : Doc.Body :=
  [ {| Doc.paragraph :=
         Some {| Doc.elements :=
                   [ {| Doc.startIndex := Some start;
                        Doc.endIndex := Some (start + length s);
                        Doc.textRun := Some {| Doc.content := Some s |} |} ] |} |} ].

(** The pieces of such documents: a text run placed at [start], an inline
    object taking the one index [start], a paragraph of given elements, and
    the section break with which a body begins, at index 0. *)
Definition text_run (s : jsstring) (start : nat) : Doc.ParagraphElement :=
  {| Doc.startIndex := Some start;
     Doc.endIndex := Some (start + length s);
     Doc.textRun := Some {| Doc.content := Some s |} |}.

Definition inline_object (start : nat) : Doc.ParagraphElement :=
  {| Doc.startIndex := Some start;
     Doc.endIndex := Some (start + 1);
     Doc.textRun := None |}.

Definition paragraph_of (elems : list Doc.ParagraphElement) : Doc.StructuralElement :=
  {| Doc.paragraph := Some {| Doc.elements := elems |} |}.

Definition section_break : Doc.StructuralElement := {| Doc.paragraph := None |}.

(** Strings built from quote-free pieces joined by escaped quotes. *)
Inductive Escaped : jsstring -> Prop :=
| Escaped_plain (a : jsstring) :
    ~ In Validation.APOSTROPHE a -> Escaped a
| Escaped_quote (a b : jsstring) :
    ~ In Validation.APOSTROPHE a -> Escaped b ->
    Escaped (a ++ Validation.BACKSLASH :: Validation.APOSTROPHE :: b).

(** A [batchUpdate] that succeeds. *)
Definition accept (_ : list Request) : Reply unit := Resolved tt.

(** [needle] occurs in [s] at offset [k]. *)
Definition occurs (s needle : jsstring) (k : nat) : Prop :=
  k + length needle <= length s /\ slice s k (k + length needle) = needle.

(** A chain of occurrences that ends because [indexOf] finds no more. *)
Fixpoint complete_chain (s needle : jsstring) (step from : nat) (ms : list nat) : Prop :=
  match ms with
  | [] => indexOf s needle from = None
  | m :: rest =>
      indexOf s needle from = Some m /\ complete_chain s needle step (m + step) rest
  end.

(** The number of matches that the test [matches.length < limit] lets
    [search_text_in_document] push: the least count that is not below the
    limit, so 3 for the limit 2.5 and none for a negative one; [None] when
    every count is below it. *)
Definition pushes_allowed (limit : Num.Number) : option nat :=
  match limit with
  | Num.Finite q => Some (Z.to_nat (Qceiling q))
  | Num.PosInfinity => None
  | _ => Some 0
  end.

(** The first matches of [ms], as many as the limit allows. *)
Definition first_allowed {A : Type} (limit : Num.Number) (ms : list A) : list A :=
  match pushes_allowed limit with
  | Some k => firstn k ms
  | None => ms
  end.

(** The [content] strings that the reply of [documents.get] carries, read
    off the reply field by field: for every structural element with a
    [paragraph], for every element of it with a [textRun], the [content] of
    the run when it has one. *)
Definition text_run_contents (content : Doc.Body) : list jsstring :=
  flat_map
    (fun element =>
       match Doc.paragraph element with
       | Some p =>
           flat_map (fun elem =>
                       match Doc.textRun elem with
                       | Some run =>
                           match Doc.content run with
                           | Some c => [c]
                           | None => []
                           end
                       | None => []
                       end) (Doc.elements p)
       | None => []
       end) content.

(** The number of words of a text: the code units that are not white
    space and come first or after white space. *)
Fixpoint word_starts (after_space : bool) (s : jsstring) : nat :=
  match s with
  | [] => 0
  | c :: s' =>
      if is_space c then word_starts true s'
      else (if after_space then 1 else 0) + word_starts false s'
  end.

(** ** The validators of src/utils/validation.ts *)

Module Validate.

Import Validation.

(** [new ValidationError(message, field)] *)
Record ValidationError := {
  message : jsstring;
  field : option jsstring
}.

(** A validator returns nothing or throws. *)
Inductive Checked : Type :=
| Passes
| Throws (e : ValidationError).

Definition throw (message : jsstring) (field : option jsstring) : Checked :=
  Throws {| message := message; field := field |}.

(** The character class [[a-zA-Z0-9_-]]. *)
Definition is_id_char (c : N) : bool :=
  ((97 <=? c) && (c <=? 122) || (65 <=? c) && (c <=? 90)
   || (48 <=? c) && (c <=? 57) || (c =? 95) || (c =? 45))%N.

(** [/^[a-zA-Z0-9_-]+$/.test(s)] *)
Definition id_pattern (s : jsstring) : bool :=
  (0 <? length s) && forallb is_id_char s.

Definition validateDocumentId (documentId : Value) : Checked :=
  match documentId with
  | NotString =>
      throw (lit "Document ID must be a non-empty string") (Some (lit "documentId"))
  | Str documentId =>
      if length documentId =? 0
      then throw (lit "Document ID must be a non-empty string") (Some (lit "documentId"))
      else if (length documentId <? 10) || (100 <? length documentId)
      then throw (lit "Document ID has invalid length") (Some (lit "documentId"))
      else if negb (id_pattern documentId)
      then throw (lit "Document ID contains invalid characters") (Some (lit "documentId"))
      else Passes
  end.

Definition validateIndex (index : Num.Arg) (fieldName : jsstring) : Checked :=
  match index with
  | Num.NotNumber => throw (lit "Index must be a number") (Some fieldName)
  | Num.Number_ index =>
      if negb (Num.isInteger index)
      then throw (lit "Index must be an integer") (Some fieldName)
      else if Num.ltb index (Num.of_Z 0)
      then throw (lit "Index must be non-negative") (Some fieldName)
      else if Num.gtb index (Num.of_Z 1000000)
      then throw (lit "Index exceeds maximum document size") (Some fieldName)
      else Passes
  end.

Definition validateRange (startIndex endIndex : Num.Arg) : Checked :=
  match validateIndex startIndex (lit "startIndex") with
  | Throws e => Throws e
  | Passes =>
      match validateIndex endIndex (lit "endIndex") with
      | Throws e => Throws e
      | Passes =>
          match startIndex, endIndex with
          | Num.Number_ s, Num.Number_ e =>
              if Num.geb s e
              then throw (lit "startIndex must be less than endIndex") None
              else
                let rangeSize := Num.sub e s in
                if Num.gtb rangeSize (Num.of_Z 100000)
                then throw (lit "Range size exceeds maximum (100,000 characters)") None
                else Passes
          | _, _ => Passes
          end
      end
  end.

Definition validateText (text : Value) (maxLength : nat) : Checked :=
  match text with
  | NotString => throw (lit "Text must be a string") (Some (lit "text"))
  | Str text =>
      if maxLength <? length text
      then throw (lit "Text exceeds maximum length of " ++ num maxLength
                  ++ lit " characters") (Some (lit "text"))
      else Passes
  end.

(** The default of [maxLength], 100000. *)
Definition DEFAULT_MAX_LENGTH : nat := 100 * 1000.

Definition validateTitle (title : Value) : Checked :=
  match title with
  | NotString => throw (lit "Title must be a string") (Some (lit "title"))
  | Str title =>
      if length title =? 0
      then throw (lit "Title cannot be empty") (Some (lit "title"))
      else if 255 <? length title
      then throw (lit "Title cannot exceed 255 characters") (Some (lit "title"))
      else Passes
  end.

Definition validateColor (value : Num.Arg) (componentName : jsstring) : Checked :=
  match value with
  | Num.NotNumber => throw (componentName ++ lit " must be a number") (Some componentName)
  | Num.Number_ value =>
      if Num.ltb value (Num.of_Z 0) || Num.gtb value (Num.of_Z 1)
      then throw (componentName ++ lit " must be between 0 and 1") (Some componentName)
      else Passes
  end.

(** The argument of [validateRGBColor]: an object, whose properties may
    hold anything, or a value that is falsy or not an object. *)
Inductive ColorArg : Type :=
| Color (red green blue : Num.Arg)
| NotObject.

Definition validateRGBColor (color : ColorArg) : Checked :=
  match color with
  | NotObject =>
      throw (lit "Color must be an object with red, green, blue properties") None
  | Color red green blue =>
      match validateColor red (lit "red") with
      | Throws e => Throws e
      | Passes =>
          match validateColor green (lit "green") with
          | Throws e => Throws e
          | Passes => validateColor blue (lit "blue")
          end
      end
  end.

Definition validateFontSize (size : Num.Arg) : Checked :=
  match size with
  | Num.NotNumber => throw (lit "Font size must be a number") (Some (lit "fontSize"))
  | Num.Number_ size =>
      if negb (Num.isFinite size)
      then throw (lit "Font size must be a finite number") (Some (lit "fontSize"))
      else if Num.ltb size (Num.of_Z 6) || Num.gtb size (Num.of_Z 400)
      then throw (lit "Font size must be between 6 and 400 points") (Some (lit "fontSize"))
      else Passes
  end.

Definition validateTableDimensions (rows columns : Num.Arg) : Checked :=
  match rows, columns with
  | Num.Number_ rows, Num.Number_ columns =>
      if negb (Num.isInteger rows) || negb (Num.isInteger columns)
      then throw (lit "Rows and columns must be integers") None
      else if Num.ltb rows (Num.of_Z 1) || Num.gtb rows (Num.of_Z 20)
      then throw (lit "Rows must be between 1 and 20") (Some (lit "rows"))
      else if Num.ltb columns (Num.of_Z 1) || Num.gtb columns (Num.of_Z 20)
      then throw (lit "Columns must be between 1 and 20") (Some (lit "columns"))
      else Passes
  | _, _ => throw (lit "Rows and columns must be numbers") None
  end.

Definition validateImageDimensions (width height : Num.Arg) : Checked :=
  match width, height with
  | Num.Number_ width, Num.Number_ height =>
      if Num.leb width (Num.of_Z 0) || Num.leb height (Num.of_Z 0)
      then throw (lit "Width and height must be positive") None
      else if Num.gtb width (Num.of_Z 3000) || Num.gtb height (Num.of_Z 3000)
      then throw (lit "Image dimensions cannot exceed 3000 pixels") None
      else Passes
  | _, _ => throw (lit "Width and height must be numbers") None
  end.

Definition validateLineSpacing (spacing : Num.Arg) : Checked :=
  match spacing with
  | Num.NotNumber => throw (lit "Line spacing must be a number") (Some (lit "lineSpacing"))
  | Num.Number_ spacing =>
      if Num.ltb spacing (Num.Finite (1 # 2)) || Num.gtb spacing (Num.of_Z 10)
      then throw (lit "Line spacing must be between 0.5 and 10") (Some (lit "lineSpacing"))
      else Passes
  end.

Definition validateNestingLevel (level : Num.Arg) : Checked :=
  match level with
  | Num.NotNumber => throw (lit "Nesting level must be an integer") (Some (lit "nestingLevel"))
  | Num.Number_ level =>
      if negb (Num.isInteger level)
      then throw (lit "Nesting level must be an integer") (Some (lit "nestingLevel"))
      else if Num.ltb level (Num.of_Z 0) || Num.gtb level (Num.of_Z 8)
      then throw (lit "Nesting level must be between 0 and 8") (Some (lit "nestingLevel"))
      else Passes
  end.

(** [ErrorCode], as far as [mapApiError] returns it. *)
Inductive ErrorCode : Type :=
| PERMISSION_DENIED
| QUOTA_EXCEEDED
| DOCUMENT_NOT_FOUND
| API_ERROR
| VALIDATION_ERROR.

(** A property of the error object: an integer, a string, or something
    falsy that is neither (absent, null, NaN).  A truthy value of another
    kind matches no [case] label and is not empty, as a string that is not
    empty does. *)
Inductive Property : Type :=
| PNumber (z : Z)
| PString (s : jsstring)
| PAbsent.

Record ApiError := {
  code : Property;
  status : Property;
  error_message : Property
}.

Definition truthy (p : Property) : bool :=
  match p with
  | PNumber z => negb (z =? 0)%Z
  | PString s => 0 <? length s
  | PAbsent => false
  end.

(** [a || b] *)
Definition or_else (a b : Property) : Property := if truthy a then a else b.

Record Mapped := {
  mapped_code : ErrorCode;
  mapped_message : Property
}.

(** [statusCode === k] for a number [k] of a [case] label. *)
Definition is_status (statusCode : Property) (k : Z) : bool :=
  match statusCode with
  | PNumber z => (z =? k)%Z
  | _ => false
  end.

Definition mapApiError (error : ApiError) : Mapped :=
  let statusCode := or_else (code error) (status error) in
  if is_status statusCode 400 then
    {| mapped_code := VALIDATION_ERROR;
       mapped_message := PString (lit "Invalid request parameters") |}
  else if is_status statusCode 403 then
    {| mapped_code := PERMISSION_DENIED;
       mapped_message :=
         PString (lit "Permission denied. Please check document sharing settings.") |}
  else if is_status statusCode 404 then
    {| mapped_code := DOCUMENT_NOT_FOUND;
       mapped_message := PString (lit "Document not found or has been deleted.") |}
  else if is_status statusCode 429 then
    {| mapped_code := QUOTA_EXCEEDED;
       mapped_message := PString (lit "API quota exceeded. Please try again later.") |}
  else if is_status statusCode 500 || is_status statusCode 502
          || is_status statusCode 503 then
    {| mapped_code := API_ERROR;
       mapped_message :=
         PString (lit "Google API is temporarily unavailable. Please try again.") |}
  else
    {| mapped_code := API_ERROR;
       mapped_message :=
         or_else (error_message error) (PString (lit "An unexpected error occurred")) |}.

End Validate.

(** ** The query of [search_documents] *)

Module Drive.

Import Validation.

(** [a === b] on strings. *)
Definition string_eqb (a b : jsstring) : bool :=
  if list_eq_dec N.eq_dec a b then true else false.

Definition BASE_QUERY : jsstring :=
  lit "mimeType='application/vnd.google-apps.document' and trashed=false".

Section Query.

Variable normalize_NFC : jsstring -> jsstring.

(** [let searchQuery = "mimeType=... and trashed=false";
     if (query && query.trim() && query !== '*')
       searchQuery += ` and name contains '${sanitizeSearchQuery(query)}'`;] *)
Definition searchQuery (query : jsstring) : jsstring :=
  if (0 <? length query) && (0 <? length (trim query)) && negb (string_eqb query (lit "*"))
  then BASE_QUERY ++ lit " and name contains '"
       ++ sanitizeSearchQuery normalize_NFC (Str query) ++ lit "'"
  else BASE_QUERY.

End Query.

End Drive.

(** ** [spell_check] *)

Module Spell.

Record Suggestion := {
  word : jsstring;
  suggestions : list jsstring
}.

Record Result := {
  text : jsstring;
  success : bool;
  found : list Suggestion;
  message : jsstring
}.

(** The class [\w]. *)
Definition is_word_char (c : N) : bool :=
  ((97 <=? c) && (c <=? 122) || (65 <=? c) && (c <=? 90)
   || (48 <=? c) && (c <=? 57) || (c =? 95))%N.

(** [s.match(/\b\w+\b/g) || []]: the maximal runs of word characters, in
    order; [cur] is the run being read. *)
Fixpoint words_go (cur s : jsstring) : list jsstring :=
  match s with
  | [] => match cur with [] => [] | _ :: _ => [cur] end
  | c :: s' =>
      if is_word_char c then words_go (cur ++ [c]) s'
      else match cur with
           | [] => words_go [] s'
           | _ :: _ => cur :: words_go [] s'
           end
  end.

Definition words_of (s : jsstring) : list jsstring := words_go [] s.

Definition commonWords : list jsstring :=
  map lit
    [ "the"; "and"; "or"; "but"; "in"; "on"; "at"; "to"; "for"; "of"; "with"; "by";
      "a"; "an"; "is"; "are"; "was"; "were"; "be"; "been"; "being"; "have"; "has"; "had";
      "do"; "does"; "did"; "will"; "would"; "could"; "should"; "may"; "might"; "can";
      "this"; "that"; "these"; "those"; "i"; "you"; "he"; "she"; "it"; "we"; "they";
      "me"; "him"; "her"; "us"; "them"; "my"; "your"; "his"; "her"; "its"; "our";
      "their" ]%string.

(** [commonWords.has(word)] *)
Definition has (set : list jsstring) (w : jsstring) : bool :=
  existsb (Drive.string_eqb w) set.

(** [[word + 's', word.slice(0, -1), word + 'ed', word + 'ing']
      .filter(suggestion => suggestion !== word)] *)
Definition wordSuggestions (w : jsstring) : list jsstring :=
  filter (fun suggestion => negb (Drive.string_eqb suggestion w))
         [ w ++ lit "s"; removelast w; w ++ lit "ed"; w ++ lit "ing" ].

(** [for (const word of words)
       if (!commonWords.has(word) && word.length > 2) {
         ...; if (wordSuggestions.length > 0) suggestions.push({...}); }] *)
Fixpoint check (words : list jsstring) : list Suggestion :=
  match words with
  | [] => []
  | w :: rest =>
      if negb (has commonWords w) && (2 <? length w)
      then if 0 <? length (wordSuggestions w)
           then {| word := w; suggestions := wordSuggestions w |} :: check rest
           else check rest
      else check rest
  end.

(** [issue${n !== 1 ? 's' : ''}] *)
Definition issues (n : nat) : jsstring :=
  lit "issue" ++ (if n =? 1 then [] else lit "s").

Definition suggestion_line (s : Suggestion) : jsstring :=
  Stats.BULLET ++ lit " " ++ QUOTE ++ word s ++ QUOTE ++ lit " - suggestions: "
  ++ Find.join (lit ", ") (suggestions s).

Section Handler.

Variable toLowerCase : jsstring -> jsstring.

(** The handler: it uses neither the document nor the API. *)
Definition spell_check (text : jsstring) : Result :=
  let words := words_of (toLowerCase text) in
  let found := check words in
  let n := length found in
  {| text := lit "Spell check completed. Found " ++ num n
             ++ lit " potential spelling " ++ issues n
             ++ (if 0 <? n
                 then lit ":" ++ NEWLINE ++ Find.join NEWLINE (map suggestion_line found)
                 else []);
     success := true;
     found := found;
     message := lit "Found " ++ num n ++ lit " potential spelling " ++ issues n |}.

End Handler.

End Spell.

(** A colour component that [validateColor] lets through. *)
Definition in_unit_or_NaN (a : Num.Arg) : Prop :=
  a = Num.Number_ Num.NaN \/
  exists q, a = Num.Number_ (Num.Finite q) /\ Qle 0 q /\ Qle q 1.

(** An integer between [lo] and [hi]. *)
Definition integer_between (lo hi : Z) (a : Num.Arg) (z : Z) : Prop :=
  exists q, a = Num.Number_ (Num.Finite q) /\ Qeq q (inject_Z z) /\ (lo <= z <= hi)%Z.

(** A code unit the sanitizer escapes or removes. *)
Definition special (c : N) : bool :=
  ((c =? Validation.NUL) || (c =? Validation.APOSTROPHE)
   || (c =? Validation.LESS) || (c =? Validation.GREATER))%N.

(** *** Facts about [indexOf] *)

Section IndexOf.

Lemma prefixb_firstn (p s : jsstring) :
  prefixb p s = true -> firstn (length p) s = p /\ length p <= length s.
Proof.
  revert s; induction p as [|a p IH]; intros [|b s]; simpl; try easy.
  - split; [reflexivity | lia].
  - intros H. apply andb_prop in H as [Hab Hps].
    apply N.eqb_eq in Hab. subst b.
    destruct (IH _ Hps) as [-> Hle]. split; [reflexivity | lia].
Qed.

Lemma prefixb_nil_r (p : jsstring) : prefixb p [] = true -> p = [].
Proof. destruct p; simpl; congruence. Qed.

Lemma find_from_spec (s needle : jsstring) (k m : nat) :
  find_from s needle k = Some m ->
  k <= m /\ m - k + length needle <= length s /\
  firstn (length needle) (skipn (m - k) s) = needle.
Proof.
  revert k; induction s as [|c s IH]; intros k; simpl.
  - destruct (prefixb needle []) eqn:E; [|discriminate].
    intros [= <-]. apply prefixb_nil_r in E. subst needle.
    rewrite Nat.sub_diag. simpl. repeat split; lia.
  - destruct (prefixb needle (c :: s)) eqn:E.
    + intros [= <-]. rewrite Nat.sub_diag.
      apply prefixb_firstn in E as [E1 E2]. simpl in *.
      repeat split; auto; lia.
    + intros H. apply IH in H as (H1 & H2 & H3).
      replace (m - k) with (S (m - S k)) by lia. simpl.
      repeat split; auto; lia.
Qed.

(** A successful [indexOf] reports an in-range occurrence of the needle at
    or after the clamped start position. *)
Lemma indexOf_Some (s needle : jsstring) (p m : nat) :
  indexOf s needle p = Some m ->
  Nat.min p (length s) <= m /\ m + length needle <= length s /\
  slice s m (m + length needle) = needle.
Proof.
  unfold indexOf, slice. intros H.
  apply find_from_spec in H as (H1 & H2 & H3).
  rewrite length_skipn in H2. rewrite skipn_skipn in H3.
  replace (m - Nat.min p (length s) + Nat.min p (length s)) with m in H3 by lia.
  replace (m + length needle - m) with (length needle) by lia.
  repeat split; auto; lia.
Qed.

(** With a non-empty needle the occurrence lies at or after the requested
    position itself, clamped or not. *)
Lemma indexOf_Some_from (s needle : jsstring) (p m : nat) :
  indexOf s needle p = Some m -> needle <> [] \/ p <= length s -> p <= m.
Proof.
  intros H Hc. apply indexOf_Some in H as (H1 & H2 & _).
  destruct Hc as [Hn | Hp]; [|lia].
  destruct needle; [congruence|]. simpl in H2. lia.
Qed.

(** The empty needle is found at once, at the clamped position. *)
Lemma indexOf_nil (s : jsstring) (p : nat) :
  indexOf s [] p = Some (Nat.min p (length s)).
Proof. unfold indexOf. destruct (skipn _ s); reflexivity. Qed.

End IndexOf.

(** *** The scan loop of [find_and_replace] *)

Section ReplaceScan.

Variables docText searchText : jsstring.

Lemma scan_chain (fuel index : nat) (matches result : list nat) :
  Replace.scan fuel docText searchText index matches = Some result ->
  exists ms, result = matches ++ ms /\
             resumed_chain docText searchText (length searchText) index ms.
Proof.
  revert index matches; induction fuel as [|fuel IH]; intros index matches; simpl.
  - discriminate.
  - destruct (indexOf docText searchText index) as [i|] eqn:E.
    + intros H. apply IH in H as (ms & -> & Hc).
      exists (i :: ms). rewrite <- app_assoc. simpl. auto.
    + intros [= <-]. exists []. rewrite app_nil_r. simpl. auto.
Qed.

(** With a non-empty needle every iteration moves the index forward, so
    the loop exits within [docText.length + 1] iterations. *)
Lemma scan_terminates (fuel index : nat) (matches : list nat) :
  searchText <> [] ->
  length docText - Nat.min index (length docText) < fuel ->
  exists result, Replace.scan fuel docText searchText index matches = Some result.
Proof.
  intros Hne. revert index matches.
  induction fuel as [|fuel IH]; intros index matches Hf; [lia|]. simpl.
  destruct (indexOf docText searchText index) as [i|] eqn:E; [|eauto].
  apply indexOf_Some in E as (H1 & H2 & _).
  apply IH. destruct searchText; [congruence|]. simpl in *. lia.
Qed.

(** With the empty needle [indexOf] always succeeds and the index never
    moves: every iteration pushes, and the loop ends when the array is
    full. *)
Lemma scan_empty_needle (fuel index : nat) (matches : list nat) :
  searchText = [] ->
  Replace.scan fuel docText searchText index matches = None.
Proof.
  intros ->. revert index matches.
  induction fuel as [|fuel IH]; intros index matches; simpl; [reflexivity|].
  rewrite indexOf_nil. apply IH.
Qed.

End ReplaceScan.

(** *** Chains of occurrences *)

Lemma chain_consecutive (s needle : jsstring) (step from : nat) (ms : list nat) :
  resumed_chain s needle step from ms ->
  needle <> [] \/ step <= length needle ->
  forall a b, consecutive ms a b -> a + step <= b.
Proof.
  intros Hc Hs a b [i [Ha Hb]]. revert from ms Hc Ha Hb.
  induction i as [|i IH]; intros from [|m rest] Hc Ha Hb;
    simpl in *; try discriminate.
  - injection Ha as ->. destruct rest as [|m' rest]; [discriminate|].
    simpl in Hb. injection Hb as ->.
    destruct Hc as (H1 & H2 & _).
    apply indexOf_Some_from with (1 := H2).
    destruct Hs as [Hs | Hs]; [left; assumption | right].
    apply indexOf_Some in H1. lia.
  - destruct Hc as (_ & Hc). eapply IH; eauto.
Qed.

Lemma chain_in (s needle : jsstring) (step from : nat) (ms : list nat) :
  resumed_chain s needle step from ms ->
  forall m, In m ms ->
    m + length needle <= length s /\ slice s m (m + length needle) = needle.
Proof.
  revert from; induction ms as [|m' rest IH]; intros from Hc m Hin; [easy|].
  destruct Hc as (H1 & Hc). destruct Hin as [<- | Hin].
  - apply indexOf_Some in H1. tauto.
  - eapply IH; eauto.
Qed.

(** A chain resumed after each occurrence of a non-empty needle is
    strictly increasing, with room for the needle between the starts. *)
Lemma chain_sorted (s needle : jsstring) (from : nat) (ms : list nat) :
  resumed_chain s needle (length needle) from ms ->
  StronglySorted (fun a b => a + length needle <= b) ms /\
  Forall (fun m => from <= m \/ length s < from) ms.
Proof.
  revert from; induction ms as [|m rest IH]; intros from Hc.
  - split; constructor.
  - destruct Hc as (H1 & Hc). apply indexOf_Some in H1 as (H1 & H2 & _).
    destruct (IH _ Hc) as (IHs & IHf). split.
    + constructor; [assumption|].
      eapply Forall_impl; [|exact IHf]. simpl. intros b Hb. lia.
    + constructor; [lia|].
      eapply Forall_impl; [|exact IHf]. simpl. intros b Hb. lia.
Qed.

(** *** Sorting and planning *)

Lemma insert_desc_last (x : nat) (l : list nat) :
  Forall (fun y => x <= y) l -> Replace.insert_desc x l = l ++ [x].
Proof.
  induction 1 as [|y l Hy Hl IH]; simpl; [reflexivity|].
  destruct (y <? x) eqn:E; [apply Nat.ltb_lt in E; lia|].
  now rewrite IH.
Qed.

(** On an increasing array the descending sort is the reversal. *)
Lemma sort_desc_ascending (k : nat) (l : list nat) :
  StronglySorted (fun a b => a + k <= b) l -> Replace.sort_desc l = rev l.
Proof.
  induction 1 as [|a l Hs IH Ha]; simpl; [reflexivity|].
  rewrite IH. apply insert_desc_last.
  apply Forall_rev. eapply Forall_impl; [|exact Ha]. simpl. intros; lia.
Qed.

Lemma StronglySorted_rev {A : Type} (R : A -> A -> Prop) (l : list A) :
  StronglySorted R l -> StronglySorted (fun a b => R b a) (rev l).
Proof.
  induction 1 as [|a l Hs IH Ha]; simpl; [constructor|].
  revert IH. generalize (Forall_rev Ha). generalize (rev l) as r.
  induction r as [|b r IHr]; intros Hf Hr; simpl.
  - repeat constructor.
  - inversion Hf; subst. inversion Hr; subst.
    constructor; [auto|]. apply Forall_app. split; [assumption|].
    repeat constructor. assumption.
Qed.

Lemma StronglySorted_weaken {A : Type} (R R' : A -> A -> Prop) (l : list A) :
  (forall a b, R a b -> R' a b) -> StronglySorted R l -> StronglySorted R' l.
Proof.
  intros HR. induction 1 as [|a l Hs IH Ha]; constructor; auto.
  eapply Forall_impl; [|exact Ha]. auto.
Qed.

Lemma StronglySorted_firstn_1 {A : Type} (R : A -> A -> Prop) (l : list A) :
  StronglySorted R (firstn 1 l).
Proof. destruct l; simpl; repeat constructor. Qed.

Lemma StronglySorted_app_inv {A : Type} (R : A -> A -> Prop) (l1 l2 : list A) :
  StronglySorted R (l1 ++ l2) ->
  forall x y, In x l1 -> In y l2 -> R x y.
Proof.
  induction l1 as [|a l1 IH]; simpl; intros H x y Hx Hy; [easy|].
  inversion H as [|? ? Hs Ha]; subst. destruct Hx as [<- | Hx].
  - rewrite Forall_forall in Ha. apply Ha. apply in_or_app. now right.
  - eapply IH; eauto.
Qed.

(** What the planning loop returns, from any state. *)
Lemma plan_from (l : list nat) (findText replaceText : jsstring) (replaceAll : bool)
      (requests : list Request) (n : nat) :
  Replace.plan l findText replaceText replaceAll requests n =
  let chosen := if replaceAll then l
                else if 1 <=? n then [] else firstn 1 l in
  (requests ++ flat_map (Replace.edit_pair findText replaceText) chosen,
   n + length chosen).
Proof.
  revert requests n; induction l as [|m l IH]; intros requests n.
  - simpl. destruct replaceAll; [|destruct n]; simpl;
      rewrite app_nil_r; f_equal; lia.
  - cbn [Replace.plan]. destruct replaceAll; [|destruct n as [|n]];
      cbn [negb andb Nat.leb].
    + rewrite IH. cbn. rewrite <- app_assoc. simpl. f_equal. lia.
    + rewrite IH. cbn. now rewrite app_nil_r.
    + cbn. rewrite app_nil_r. f_equal. lia.
Qed.

(** The loop plans one delete-insert pair per target, in the order of
    the sorted array, and counts the targets. *)
Lemma plan_targets (l : list nat) (findText replaceText : jsstring) (replaceAll : bool) :
  Replace.plan l findText replaceText replaceAll [] 0 =
  (flat_map (Replace.edit_pair findText replaceText) (targets replaceAll l),
   length (targets replaceAll l)).
Proof. rewrite plan_from. unfold targets. destruct replaceAll; reflexivity. Qed.

(** *** The handler of [find_and_replace], case by case *)

Section ReplaceHandler.

Variable toLowerCase : jsstring -> jsstring.

Lemma find_matches_chain (fuel : nat) (T Q : jsstring) (matchCase : bool) (ms : list nat) :
  Replace.find_matches toLowerCase fuel T Q matchCase = Some ms ->
  resumed_chain (Replace.haystack toLowerCase T matchCase)
                (Replace.needle toLowerCase Q matchCase)
                (length (Replace.needle toLowerCase Q matchCase)) 0 ms.
Proof.
  unfold Replace.find_matches. intros H.
  apply scan_chain in H as (ms' & -> & Hc). exact Hc.
Qed.

(** The loop never exits with an empty needle, so the offsets it exits
    with are strictly increasing. *)
Lemma find_matches_increasing (fuel : nat) (T Q : jsstring) (matchCase : bool)
      (ms : list nat) :
  Replace.find_matches toLowerCase fuel T Q matchCase = Some ms ->
  StronglySorted (fun a b => a + 1 <= b) ms.
Proof.
  intros H.
  destruct (Replace.needle toLowerCase Q matchCase) as [|c needle] eqn:E.
  - unfold Replace.find_matches in H.
    rewrite scan_empty_needle in H by exact E. discriminate.
  - apply find_matches_chain in H. apply chain_sorted in H as [H _].
    rewrite E in H. simpl in H.
    eapply StronglySorted_weaken; [|exact H]. simpl. intros; lia.
Qed.

Lemma find_matches_sorted (fuel : nat) (T Q : jsstring) (matchCase : bool)
      (ms : list nat) :
  Replace.find_matches toLowerCase fuel T Q matchCase = Some ms ->
  Replace.sort_desc ms = rev ms.
Proof.
  intros H. apply find_matches_increasing in H.
  now apply sort_desc_ascending with (k := 1).
Qed.

(** A handler that called [batchUpdate] had found matches, and sent the
    pairs planned for its targets among them, highest offset first. *)
Lemma sent_inv (fuel : nat) (body : option Doc.Body) (Q R : jsstring)
      (matchCase replaceAll : bool) (batchUpdate : list Request -> Reply unit)
      (sent : list Request) (result : Replace.Result) :
  Replace.find_and_replace toLowerCase fuel (Resolved body) Q R matchCase replaceAll
                           batchUpdate = Returned (Some sent) result ->
  exists ms,
    Replace.find_matches toLowerCase fuel (Doc.documentText (body_content body))
                         Q matchCase = Some ms /\
    ms <> [] /\
    sent = flat_map (Replace.edit_pair Q R) (targets replaceAll (rev ms)) /\
    match batchUpdate sent with
    | Resolved _ => result = Replace.replaced Q R (length (targets replaceAll (rev ms)))
    | Rejected e => result = Replace.failed e
    end.
Proof.
  unfold Replace.find_and_replace.
  destruct (Replace.find_matches _ _ _ _ _) as [ms|] eqn:E; [|discriminate].
  destruct ms as [|m ms]; [discriminate|].
  cbn [length Nat.eqb].
  rewrite (find_matches_sorted _ _ _ _ _ E), plan_targets.
  destruct (batchUpdate _) as [u|e] eqn:B; intros [= <- <-];
    exists (m :: ms); simpl in B |- *; rewrite B;
    repeat split; congruence.
Qed.

(** A handler that read the document and returned without calling
    [batchUpdate] found nothing, or its scan filled the array. *)
Lemma unsent_inv (fuel : nat) (body : option Doc.Body) (Q R : jsstring)
      (matchCase replaceAll : bool) (batchUpdate : list Request -> Reply unit)
      (result : Replace.Result) :
  Replace.find_and_replace toLowerCase fuel (Resolved body) Q R matchCase replaceAll
                           batchUpdate = Returned None result ->
  (Replace.find_matches toLowerCase fuel (Doc.documentText (body_content body))
                        Q matchCase = Some [] /\
   result = Replace.no_match Q) \/
  (Replace.find_matches toLowerCase fuel (Doc.documentText (body_content body))
                        Q matchCase = None /\
   result = Replace.failed INVALID_ARRAY_LENGTH).
Proof.
  unfold Replace.find_and_replace.
  destruct (Replace.find_matches _ _ _ _ _) as [ms|] eqn:E.
  - destruct ms as [|m ms]; cbn [length Nat.eqb].
    + intros [= <-]. auto.
    + destruct (Replace.plan _ _ _ _ _ _) as [requests n].
      destruct (batchUpdate _); discriminate.
  - intros [= <-]. auto.
Qed.

(** A scan that exits with some fuel exits with the same array with any
    more: what the handler does when its scan exits does not depend on how
    many entries an array can take. *)
Lemma scan_more_fuel (docText searchText : jsstring) (fuel fuel' index : nat)
      (matches result : list nat) :
  Replace.scan fuel docText searchText index matches = Some result ->
  fuel <= fuel' ->
  Replace.scan fuel' docText searchText index matches = Some result.
Proof.
  revert fuel' index matches; induction fuel as [|fuel IH];
    intros fuel' index matches; simpl; [discriminate|].
  intros H Hle. destruct fuel' as [|fuel']; [lia|]. simpl.
  destruct (indexOf docText searchText index); [|assumption].
  apply IH; [assumption | lia].
Qed.

Lemma find_and_replace_more_fuel (fuel fuel' : nat) (doc : Reply (option Doc.Body))
      (Q R : jsstring) (matchCase replaceAll : bool)
      (batchUpdate : list Request -> Reply unit) (ms : list nat) :
  (forall body, doc = Resolved body ->
     Replace.find_matches toLowerCase fuel (Doc.documentText (body_content body))
                          Q matchCase = Some ms) ->
  fuel <= fuel' ->
  Replace.find_and_replace toLowerCase fuel' doc Q R matchCase replaceAll batchUpdate =
  Replace.find_and_replace toLowerCase fuel doc Q R matchCase replaceAll batchUpdate.
Proof.
  intros H Hle. destruct doc as [body|e]; [|reflexivity].
  specialize (H body eq_refl). unfold Replace.find_and_replace.
  rewrite H. unfold Replace.find_matches in *.
  now rewrite (scan_more_fuel _ _ _ _ _ _ _ H Hle).
Qed.

(** With a non-empty needle the loop exits within one iteration per code
    unit of the text and one more: an array that takes an entry per code
    unit is never full. *)
Lemma find_matches_total (T Q : jsstring) (matchCase : bool) :
  Replace.needle toLowerCase Q matchCase <> [] ->
  exists ms,
    Replace.find_matches toLowerCase
      (S (length (Replace.haystack toLowerCase T matchCase))) T Q matchCase = Some ms.
Proof.
  intros Hne. unfold Replace.find_matches.
  apply scan_terminates; [assumption | lia].
Qed.

End ReplaceHandler.

(** *** Applying requests to a document *)

Lemma apply_request_prefix (r : Request) (t t' : Store.Document) (q : nat) :
  Store.apply_request r t = Some t' -> q <= Store.position r ->
  firstn q t' = firstn q t.
Proof.
  destruct r as [s e | i x]; simpl.
  - destruct ((s <=? e) && (e <=? length t)) eqn:E; [|discriminate].
    apply andb_prop in E as [E1 E2].
    apply Nat.leb_le in E1, E2. intros [= <-] Hq.
    rewrite firstn_app, firstn_firstn, length_firstn.
    replace (q - Nat.min s (length t)) with 0 by lia.
    replace (Nat.min q s) with q by lia.
    simpl. apply app_nil_r.
  - destruct (i <=? length t) eqn:E; [|discriminate].
    apply Nat.leb_le in E. intros [= <-] Hq.
    rewrite firstn_app, firstn_firstn, length_firstn.
    replace (q - Nat.min i (length t)) with 0 by lia.
    replace (Nat.min q i) with q by lia.
    simpl. apply app_nil_r.
Qed.

(** Requests that edit at or after [q] leave the document before [q] as
    it is. *)
Lemma apply_requests_prefix (rs : list Request) (t t' : Store.Document) (q : nat) :
  Store.apply_requests rs t = Some t' ->
  (forall r, In r rs -> q <= Store.position r) ->
  firstn q t' = firstn q t.
Proof.
  revert t; induction rs as [|r rs IH]; simpl; intros t H Hq.
  - now injection H as ->.
  - destruct (Store.apply_request r t) as [t1|] eqn:E; [|discriminate].
    rewrite (IH _ H) by auto. eapply apply_request_prefix; eauto.
Qed.

Lemma positions_of_pairs (Q R : jsstring) (ts : list nat) :
  map Store.position (flat_map (Replace.edit_pair Q R) ts) =
  flat_map (fun m => [m; m]) ts.
Proof. induction ts as [|m ts IH]; simpl; [reflexivity | now rewrite IH]. Qed.

Lemma doubled_descending (ts : list nat) :
  StronglySorted (fun a b => b < a) ts ->
  StronglySorted (fun a b => b <= a) (flat_map (fun m => [m; m]) ts).
Proof.
  induction 1 as [|m ts Hs IH Hm]; simpl; [constructor|].
  assert (Hf : Forall (fun b => b <= m) (flat_map (fun m => [m; m]) ts)).
  { apply Forall_forall. intros b Hb. apply in_flat_map in Hb as (a & Ha & Hb).
    rewrite Forall_forall in Hm. specialize (Hm _ Ha).
    simpl in Hb. destruct Hb as [<- | [<- | []]]; lia. }
  repeat constructor; auto.
Qed.

Lemma firstn_1_rev (d : nat) (ms : list nat) :
  ms <> [] -> firstn 1 (rev ms) = [last ms d].
Proof.
  destruct ms as [|m ms] using rev_ind; [congruence|]. intros _.
  now rewrite rev_app_distr, last_last.
Qed.

Lemma length_targets (replaceAll : bool) (ms : list nat) :
  length (targets replaceAll (rev ms)) =
  if replaceAll then length ms else Nat.min 1 (length ms).
Proof.
  unfold targets. destruct replaceAll.
  - apply length_rev.
  - now rewrite length_firstn, length_rev.
Qed.

(** ** The replace planner *)

Section ReplacePlanner.

Variable toLowerCase : jsstring -> jsstring.

(** Without [replaceAll] the one pair sent edits the last match of the
    document: the array is sorted in descending order before the loop
    that stops after one replacement. *)
Lemma single_replace_plans_last (fuel : nat) (body : option Doc.Body) (Q R : jsstring)
      (matchCase : bool) (batchUpdate : list Request -> Reply unit)
      (sent : list Request) (result : Replace.Result) :
  Replace.find_and_replace toLowerCase fuel (Resolved body) Q R matchCase false
                           batchUpdate = Returned (Some sent) result ->
  exists ms,
    Replace.find_matches toLowerCase fuel (Doc.documentText (body_content body))
                         Q matchCase = Some ms /\
    sent = Replace.edit_pair Q R (last ms 0).
Proof.
  intros H. apply sent_inv in H as (ms & Hms & Hne & -> & _).
  exists ms. split; [assumption|].
  unfold targets. rewrite (firstn_1_rev 0 ms Hne). reflexivity.
Qed.

(** C5: the requests sent are one pair per planned match, a
    [deleteContentRange] of the match immediately followed by the
    [insertText] of the replacement at its start; the planned matches come
    in strictly descending order of their index; and once any part of the
    batch has been applied, the text before the index of every request
    still to be applied is as it was, so that no such index has shifted. *)
Theorem edits_descend_in_pairs (fuel : nat) (body : option Doc.Body) (Q R : jsstring)
        (matchCase replaceAll : bool) (batchUpdate : list Request -> Reply unit)
        (sent : list Request) (result : Replace.Result) :
  Replace.find_and_replace toLowerCase fuel (Resolved body) Q R matchCase replaceAll
                           batchUpdate = Returned (Some sent) result ->
  exists ms,
    Replace.find_matches toLowerCase fuel (Doc.documentText (body_content body))
                         Q matchCase = Some ms /\
    let planned := if replaceAll then rev ms else firstn 1 (rev ms) in
    sent = flat_map (fun m => [deleteContentRange m (m + length Q); insertText m R])
                    planned /\
    StronglySorted (fun a b => b < a) planned /\
    forall done todo t t',
      sent = done ++ todo -> Store.apply_requests done t = Some t' ->
      forall r, In r todo ->
        firstn (Store.position r) t' = firstn (Store.position r) t.
Proof.
  intros H. apply sent_inv in H as (ms & Hms & Hne & -> & _).
  assert (Hs : StronglySorted (fun a b => b < a) (targets replaceAll (rev ms))).
  { unfold targets. destruct replaceAll; [|apply StronglySorted_firstn_1].
    apply find_matches_increasing in Hms. apply StronglySorted_rev in Hms.
    eapply StronglySorted_weaken; [|exact Hms]. simpl. intros; lia. }
  exists ms. split; [assumption|].
  change (if replaceAll then rev ms else firstn 1 (rev ms))
    with (targets replaceAll (rev ms)).
  cbv zeta. repeat split; [assumption|].
  intros done todo t t' Hsplit Happ r Hr.
  apply apply_requests_prefix with (1 := Happ). intros r' Hr'.
  apply doubled_descending in Hs.
  rewrite <- (positions_of_pairs Q R) in Hs.
  change (fun m => [deleteContentRange m (m + length Q); insertText m R])
    with (Replace.edit_pair Q R) in Hsplit.
  rewrite Hsplit, map_app in Hs.
  eapply StronglySorted_app_inv with (x := Store.position r') (y := Store.position r);
    [exact Hs | now apply in_map ..].
Qed.

(** C6, as the handler has it: it reports one count, [replacementsCount],
    whatever way it returns.  With an error result (the document could not
    be read, the scan filled the array, as it does for the empty
    [findText], or [batchUpdate] failed) the count is zero.  Otherwise the
    scan has exited with the matches found, and the count is their number
    if [replaceAll] is set, and otherwise one (zero when nothing was
    found). *)
Theorem replacements_count_reported (fuel : nat) (doc : Reply (option Doc.Body))
        (Q R : jsstring) (matchCase replaceAll : bool)
        (batchUpdate : list Request -> Reply unit)
        (sent : option (list Request)) (result : Replace.Result) :
  Replace.find_and_replace toLowerCase fuel doc Q R matchCase replaceAll
                           batchUpdate = Returned sent result ->
  (Replace.isError result = true /\ Replace.replacementsCount result = 0) \/
  (Replace.isError result = false /\
   exists body ms,
     doc = Resolved body /\
     Replace.find_matches toLowerCase fuel (Doc.documentText (body_content body))
                          Q matchCase = Some ms /\
     Replace.replacementsCount result =
       if replaceAll then length ms else Nat.min 1 (length ms)).
Proof.
  destruct doc as [body|e].
  - destruct sent as [sent|]; intros H.
    + apply sent_inv in H as (ms & Hms & Hne & -> & Hr).
      destruct (batchUpdate _); subst result; [right | left; auto].
      split; [reflexivity|]. exists body, ms. repeat split; [assumption|].
      apply length_targets.
    + apply unsent_inv in H as [[Hms ->] | [_ ->]]; [right | left; auto].
      split; [reflexivity|]. exists body, []. repeat split; [assumption|].
      now destruct replaceAll.
  - intros [= <- <-]. left. auto.
Qed.

End ReplacePlanner.

(** ** The scan loop of [search_text_in_document] *)

Lemma ltb_count (n : nat) (limit : Num.Number) :
  Num.ltb (Num.of_nat n) limit =
  match pushes_allowed limit with
  | Some k => n <? k
  | None => true
  end.
Proof.
  destruct limit as [q| | |]; try reflexivity.
  unfold pushes_allowed, Num.of_nat, Num.of_Z, Num.ltb.
  pose proof (Qle_ceiling q) as Hup. pose proof (Qceiling_lt q) as Hlow.
  destruct (n <? Z.to_nat (Qceiling q)) eqn:E.
  - apply Nat.ltb_lt in E. apply negb_true_iff, not_true_iff_false. intros H.
    apply Qle_bool_iff in H.
    assert (Hz : (Z.of_nat n <= Qceiling q - 1)%Z) by lia.
    rewrite Zle_Qle in Hz.
    exact (Qlt_irrefl q (Qle_lt_trans _ _ _ (Qle_trans _ _ _ H Hz) Hlow)).
  - apply Nat.ltb_ge in E. apply negb_false_iff, Qle_bool_iff.
    assert (Hz : (Qceiling q <= Z.of_nat n)%Z) by lia.
    rewrite Zle_Qle in Hz. exact (Qle_trans _ _ _ Hup Hz).
Qed.

Section FindScan.

Variables documentText docTextLower searchTextLower searchText : jsstring.
Variable maxResults : Num.Number.

Local Abbreviation scan fuel :=
  (Find.scan fuel documentText docTextLower searchTextLower searchText maxResults).

Lemma find_scan_chain (fuel index : nat) (matches result : list Find.Match) :
  scan fuel index matches = Some result ->
  exists new,
    result = matches ++ new /\
    resumed_chain docTextLower searchTextLower (length searchText) index
                  (map Find.startIndex new) /\
    Forall (fun m => m = Find.match_at documentText searchText (Find.startIndex m)) new.
Proof.
  revert index matches.
  induction fuel as [|fuel IH]; intros index matches; cbn [Find.scan]; [discriminate|].
  destruct (indexOf docTextLower searchTextLower index) as [i|] eqn:E.
  - destruct (Num.ltb _ _).
    + intros H. apply IH in H as (new & -> & Hc & Hf).
      exists (Find.match_at documentText searchText i :: new).
      rewrite <- app_assoc. simpl. repeat split; auto.
    + intros [= <-]. exists []. rewrite app_nil_r. simpl. auto.
  - intros [= <-]. exists []. rewrite app_nil_r. simpl. auto.
Qed.

(** A scan that exits with some fuel exits the same with any more. *)
Lemma find_scan_more_fuel (fuel fuel' index : nat) (matches result : list Find.Match) :
  scan fuel index matches = Some result -> fuel <= fuel' ->
  scan fuel' index matches = Some result.
Proof.
  revert fuel' index matches; induction fuel as [|fuel IH];
    intros fuel' index matches; cbn [Find.scan]; [discriminate|].
  intros H Hle. destruct fuel' as [|fuel']; [lia|]. cbn [Find.scan].
  destruct (indexOf docTextLower searchTextLower index); [|assumption].
  destruct (Num.ltb _ _); [|assumption].
  apply IH; [assumption | lia].
Qed.

(** With a non-empty query and a non-empty needle every iteration moves
    the index forward, so the loop exits within [docTextLower.length + 1]
    iterations, whatever the bound on the number of results. *)
Lemma find_scan_exits (fuel index : nat) (matches : list Find.Match) :
  searchTextLower <> [] -> searchText <> [] ->
  length docTextLower - Nat.min index (length docTextLower) < fuel ->
  exists result, scan fuel index matches = Some result.
Proof.
  intros Hne Hq. revert index matches.
  induction fuel as [|fuel IH]; intros index matches Hf; [lia|]. cbn [Find.scan].
  destruct (indexOf docTextLower searchTextLower index) as [i|] eqn:E; [|eauto].
  destruct (Num.ltb _ _); [|eauto].
  apply indexOf_Some in E as (H1 & H2 & _).
  apply IH. destruct searchTextLower; [congruence|].
  destruct searchText; [congruence|]. simpl in *. lia.
Qed.

(** A finite bound on the number of results ends the loop, whatever the
    needle, when the array takes that many entries. *)
Lemma find_scan_terminates (fuel index k : nat) (matches : list Find.Match) :
  pushes_allowed (Find.limit maxResults) = Some k ->
  k - length matches < fuel ->
  exists result, scan fuel index matches = Some result.
Proof.
  intros Hk. revert index matches.
  induction fuel as [|fuel IH]; intros index matches Hf; [lia|]. cbn [Find.scan].
  destruct (indexOf docTextLower searchTextLower index) as [i|]; [|eauto].
  rewrite ltb_count, Hk. destruct (length matches <? k) eqn:E; [|eauto].
  apply Nat.ltb_lt in E. apply IH. rewrite length_app. simpl. lia.
Qed.

(** With an empty query the loop pushes the empty match at offset 0 until
    the bound on the number of results is reached, or until the array is
    full. *)
Lemma find_scan_empty (fuel : nat) (matches : list Find.Match) :
  searchTextLower = [] -> searchText = [] ->
  scan fuel 0 matches =
  match pushes_allowed (Find.limit maxResults) with
  | Some k =>
      if k - length matches <? fuel
      then Some (matches ++ repeat (Find.match_at documentText [] 0) (k - length matches))
      else None
  | None => None
  end.
Proof.
  intros -> ->. revert matches.
  induction fuel as [|fuel IH]; intros matches.
  - simpl. now destruct (pushes_allowed _).
  - cbn [Find.scan]. rewrite indexOf_nil, ltb_count. cbn [Nat.min length Nat.add].
    rewrite IH. destruct (pushes_allowed _) as [k|]; [|reflexivity].
    destruct (length matches <? k) eqn:E.
    + apply Nat.ltb_lt in E. rewrite length_app. cbn [length].
      replace (k - length matches) with (S (k - (length matches + 1))) by lia.
      change (S (k - (length matches + 1)) <? S fuel)
        with (k - (length matches + 1) <? fuel).
      destruct (_ <? fuel); [|reflexivity].
      now rewrite <- app_assoc.
    + apply Nat.ltb_ge in E. replace (k - length matches) with 0 by lia.
      cbn [Nat.ltb Nat.leb repeat]. now rewrite app_nil_r.
Qed.

End FindScan.

Lemma chain_resume (s needle : jsstring) (step from : nat) (ms : list nat) :
  resumed_chain s needle step from ms ->
  forall a b, consecutive ms a b -> indexOf s needle (a + step) = Some b.
Proof.
  intros Hc a b [i [Ha Hb]]. revert from ms Hc Ha Hb.
  induction i as [|i IH]; intros from [|m rest] Hc Ha Hb;
    simpl in *; try discriminate.
  - injection Ha as ->. destruct rest as [|m' rest]; [discriminate|].
    simpl in Hb. injection Hb as ->. now destruct Hc as (_ & H & _).
  - destruct Hc as (_ & Hc). eapply IH; eauto.
Qed.

Lemma consecutive_map {A B : Type} (f : A -> B) (l : list A) (a b : A) :
  consecutive l a b -> consecutive (map f l) (f a) (f b).
Proof. intros [i [Ha Hb]]. exists i. split; now apply map_nth_error. Qed.

Lemma consecutive_in {A : Type} (l : list A) (a b : A) :
  consecutive l a b -> In a l /\ In b l.
Proof. intros [i [Ha Hb]]. split; eapply nth_error_In; eauto. Qed.

(** ** The search engine *)

Section SearchEngine.

Variable toLowerCase : jsstring -> jsstring.

Local Abbreviation needle := (Replace.needle toLowerCase).
Local Abbreviation haystack := (Replace.haystack toLowerCase).

Lemma find_find_matches_chain (fuel : nat) (T Q : jsstring) (matchCase : bool)
      (maxResults : Num.Number) (ms : list Find.Match) :
  Find.find_matches toLowerCase fuel T Q matchCase maxResults = Some ms ->
  resumed_chain (haystack T matchCase) (needle Q matchCase) (length Q) 0
                (map Find.startIndex ms) /\
  Forall (fun m => m = Find.match_at T Q (Find.startIndex m)) ms.
Proof.
  unfold Find.find_matches. intros H.
  apply find_scan_chain in H as (new & -> & Hc & Hf). auto.
Qed.

(** C7: for a non-empty query whose needle is at least as long (it is the
    query itself, or its lower case), the matches reported by both tools do
    not overlap: after a match the scan resumes behind it (in
    [search_text_in_document] exactly at its end), the next match is the
    first occurrence from there on, so the end of a match is at most the
    start of the next; and both loops exit, within one iteration per code
    unit of the text and one more, and that of [search_text_in_document]
    also within one more than the matches its bound allows. *)
Theorem matches_do_not_overlap (fuel : nat) (T Q : jsstring) (matchCase : bool)
        (maxResults : Num.Number) :
  Q <> [] ->
  length Q <= length (needle Q matchCase) ->
  (forall ms, Replace.find_matches toLowerCase fuel T Q matchCase = Some ms ->
     forall a b, consecutive ms a b ->
       indexOf (haystack T matchCase) (needle Q matchCase)
               (a + length (needle Q matchCase)) = Some b /\
       a + length Q <= b) /\
  (forall ms, Find.find_matches toLowerCase fuel T Q matchCase maxResults = Some ms ->
     forall a b, consecutive ms a b ->
       indexOf (haystack T matchCase) (needle Q matchCase) (Find.endIndex a)
         = Some (Find.startIndex b) /\
       Find.endIndex a <= Find.startIndex b) /\
  (exists ms, Replace.find_matches toLowerCase (S (length (haystack T matchCase)))
                                   T Q matchCase = Some ms) /\
  (exists ms, Find.find_matches toLowerCase (S (length (haystack T matchCase)))
                                T Q matchCase maxResults = Some ms) /\
  (forall k, pushes_allowed (Find.limit maxResults) = Some k ->
     exists ms, Find.find_matches toLowerCase (S k) T Q matchCase maxResults = Some ms).
Proof.
  intros HQ Hlen.
  assert (Hne : needle Q matchCase <> []).
  { destruct Q; [congruence|]. destruct (needle _ _); simpl in *; [lia | congruence]. }
  repeat split.
  - apply find_matches_chain in H. eapply chain_resume; eauto.
  - apply find_matches_chain in H.
    pose proof (chain_consecutive _ _ _ _ _ H (or_introl Hne) _ _ H0). lia.
  - apply find_find_matches_chain in H as [Hc Hf].
    apply consecutive_in in H0 as Hin. destruct Hin as [Ha _].
    rewrite Forall_forall in Hf. rewrite (Hf a Ha) at 1. simpl.
    eapply chain_resume; [exact Hc|]. now apply consecutive_map.
  - apply find_find_matches_chain in H as [Hc Hf].
    apply consecutive_in in H0 as Hin. destruct Hin as [Ha _].
    rewrite Forall_forall in Hf. rewrite (Hf a Ha) at 1. simpl.
    apply (chain_consecutive _ _ _ _ _ Hc (or_introl Hne)).
    now apply consecutive_map.
  - now apply find_matches_total.
  - unfold Find.find_matches. apply find_scan_exits; [exact Hne | exact HQ |].
    unfold Replace.haystack. lia.
  - intros k Hk. unfold Find.find_matches.
    apply (find_scan_terminates _ _ _ _ _ _ _ k); [exact Hk | simpl; lia].
Qed.

(** C3, what the handlers do instead of rejecting the empty query.  The
    scan of [find_and_replace] finds the empty needle at offset 0 in every
    iteration, fills the array, and the handler reports the RangeError of
    [matches.push] without having called [batchUpdate].
    [search_text_in_document] succeeds with as many empty matches at
    offset 0 as [maxResults] allows, and reports the same RangeError when
    the array is full before that. *)
Theorem empty_query_not_rejected (fuel : nat) (body : option Doc.Body) (R : jsstring)
        (matchCase replaceAll : bool) (batchUpdate : list Request -> Reply unit)
        (maxResults : Num.Number) :
  toLowerCase [] = [] ->
  Replace.find_and_replace toLowerCase fuel (Resolved body) [] R matchCase replaceAll
                           batchUpdate
  = Returned None (Replace.failed INVALID_ARRAY_LENGTH) /\
  Find.search_text_in_document toLowerCase fuel (Resolved body) [] matchCase maxResults
  = Returned None
      match pushes_allowed (Find.limit maxResults) with
      | Some k =>
          if k <? fuel
          then Find.found [] (repeat (Find.match_at (Doc.documentText (body_content body))
                                                    [] 0) k)
          else Find.failed INVALID_ARRAY_LENGTH
      | None => Find.failed INVALID_ARRAY_LENGTH
      end.
Proof.
  intros H0.
  assert (Hn : needle [] matchCase = []) by (destruct matchCase; auto).
  split.
  - unfold Replace.find_and_replace, Replace.find_matches.
    now rewrite scan_empty_needle.
  - unfold Find.search_text_in_document, Find.find_matches.
    rewrite find_scan_empty by auto.
    destruct (pushes_allowed _) as [k|]; [|reflexivity].
    cbn [length]. rewrite Nat.sub_0_r. now destruct (k <? fuel).
Qed.

(** When lowering maps code unit to code unit, the offsets found in the
    lowered copy do index the original text: the range of every match
    reads, lowered, as the lowered query. *)
Lemma offsets_correct_when_unitwise (f : N -> N) (fuel : nat) (T Q : jsstring)
      (ms : list nat) :
  (forall s, toLowerCase s = map f s) ->
  Replace.find_matches toLowerCase fuel T Q false = Some ms ->
  forall m, In m ms -> toLowerCase (slice T m (m + length Q)) = toLowerCase Q.
Proof.
  intros Hf H m Hm. apply find_matches_chain in H.
  destruct (chain_in _ _ _ _ _ H m Hm) as [_ Hs]. simpl in Hs.
  rewrite (Hf Q), (Hf T), length_map in Hs.
  rewrite (Hf (slice T m (m + length Q))), (Hf Q). rewrite <- Hs.
  unfold slice. now rewrite skipn_map, firstn_map.
Qed.

(** The requests depend on the document through its extracted text only,
    and their indices are offsets found in that text. *)
Lemma sent_positions_are_flat_offsets (fuel : nat) (body : option Doc.Body)
      (Q R : jsstring) (matchCase replaceAll : bool)
      (batchUpdate : list Request -> Reply unit)
      (sent : list Request) (result : Replace.Result) :
  Replace.find_and_replace toLowerCase fuel (Resolved body) Q R matchCase replaceAll
                           batchUpdate = Returned (Some sent) result ->
  exists ms,
    Replace.find_matches toLowerCase fuel (Doc.documentText (body_content body))
                         Q matchCase = Some ms /\
    forall r, In r sent ->
      exists m, In m ms /\
        (r = deleteContentRange m (m + length Q) \/ r = insertText m R).
Proof.
  intros H. apply sent_inv in H as (ms & Hms & Hne & -> & _).
  exists ms. split; [assumption|]. intros r Hr.
  apply in_flat_map in Hr as (m & Hm & Hr). exists m. split.
  - apply in_rev. unfold targets in Hm. destruct replaceAll; [assumption|].
    destruct (rev ms); simpl in Hm; [easy|]. destruct Hm as [<- | []]. now left.
  - simpl in Hr. destruct Hr as [<- | [<- | []]]; auto.
Qed.

End SearchEngine.

(** ** Document statistics *)

Lemma drop_space_blank (s : jsstring) :
  forallb is_space s = true -> drop_space s = [].
Proof.
  induction s as [|c s IH]; simpl; [reflexivity|].
  intros H. apply andb_prop in H as [Hc Hs]. rewrite Hc. auto.
Qed.

Lemma trim_blank (s : jsstring) : forallb is_space s = true -> trim s = [].
Proof. intros H. unfold trim. now rewrite (drop_space_blank s H). Qed.

Lemma length_concat_sum (l : list jsstring) :
  length (concat l) = list_sum (map (@length N) l).
Proof.
  induction l as [|x l IH]; simpl; [reflexivity|].
  now rewrite length_app, IH.
Qed.

(** The extracted text is the [content] strings of the reply, one after
    the other. *)
Lemma documentText_contents (content : Doc.Body) :
  Doc.documentText content = concat (text_run_contents content).
Proof.
  unfold Doc.documentText, text_run_contents.
  induction content as [|element content IH]; simpl; [reflexivity|].
  rewrite concat_app, <- IH. f_equal.
  destruct (Doc.paragraph element) as [[elems]|]; [|reflexivity].
  unfold Doc.paragraph_text. simpl.
  induction elems as [|elem elems IHe]; simpl; [reflexivity|].
  rewrite concat_app, <- IHe. f_equal.
  unfold Doc.run_content.
  destruct (Doc.textRun elem) as [[[c|]]|]; simpl; rewrite ?app_nil_r; reflexivity.
Qed.

Lemma forallb_concat (f : N -> bool) (l : list jsstring) :
  Forall (fun c => forallb f c = true) l -> forallb f (concat l) = true.
Proof.
  induction 1 as [|c l Hc _ IH]; simpl; [reflexivity|].
  rewrite forallb_app, Hc, IH. reflexivity.
Qed.

(** C10: [get_word_count] counts no word when every [textRun.content] of
    the document is empty or white space only (and so when there is none),
    and reports as [characterCount] the length of the [textRun.content]
    strings put one after the other, which is their lengths added up: white
    space and line ends count. *)
Theorem word_count_statistics (body : option Doc.Body) :
  let content := body_content body in
  let result := Stats.get_word_count (Resolved body) in
  (Forall (fun c => forallb is_space c = true) (text_run_contents content) ->
   Stats.wordCount result = 0) /\
  Stats.characterCount result = length (concat (text_run_contents content)) /\
  Stats.characterCount result = list_sum (map (@length N) (text_run_contents content)).
Proof.
  cbv zeta. cbn [Stats.get_word_count Stats.counted Stats.wordCount Stats.characterCount].
  rewrite documentText_contents. repeat split.
  - intros H. unfold Stats.count_words.
    now rewrite (trim_blank _ (forallb_concat _ _ H)).
  - apply length_concat_sum.
Qed.

(** ** Sanitizing a search query *)

Import Validation.

Lemma escapedb_weaken (b : bool) (s : jsstring) :
  escapedb false s = true -> escapedb b s = true.
Proof.
  destruct s as [|c s]; simpl; [reflexivity|].
  destruct (c =? APOSTROPHE)%N; [discriminate | auto].
Qed.

Lemma escapedb_escape_quotes (b : bool) (q : jsstring) :
  escapedb b (escape_quotes q) = true.
Proof.
  revert b; induction q as [|c q IH]; intros b; [reflexivity|].
  unfold escape_quotes. cbn [flat_map]. fold (escape_quotes q).
  destruct (c =? APOSTROPHE)%N eqn:E.
  - cbn. apply IH.
  - cbn [app escapedb]. rewrite E. cbn. apply IH.
Qed.

Lemma escapedb_filter (keep : N -> bool) (b : bool) (s : jsstring) :
  keep BACKSLASH = true ->
  escapedb b s = true -> escapedb b (filter keep s) = true.
Proof.
  intros Hk. revert b; induction s as [|c s IH]; intros b; simpl; [reflexivity|].
  intros H. apply andb_prop in H as [Hc Hs].
  destruct (keep c) eqn:E; simpl.
  - rewrite Hc. simpl. auto.
  - destruct (c =? BACKSLASH)%N eqn:Eb.
    + apply N.eqb_eq in Eb. congruence.
    + apply escapedb_weaken. auto.
Qed.

Lemma Escaped_cons (c : N) (s : jsstring) :
  c <> APOSTROPHE -> Escaped s -> Escaped (c :: s).
Proof.
  intros Hc [a Ha | a b Ha Hb].
  - apply Escaped_plain. simpl. intros [H | H]; auto.
  - change (c :: a ++ BACKSLASH :: APOSTROPHE :: b)
      with ((c :: a) ++ BACKSLASH :: APOSTROPHE :: b).
    apply Escaped_quote; [|assumption]. simpl. intros [H | H]; auto.
Qed.

Lemma escapedb_Escaped (b : bool) (s : jsstring) :
  escapedb b s = true ->
  Escaped s \/ (b = true /\ exists s', s = APOSTROPHE :: s' /\ Escaped s').
Proof.
  revert b; induction s as [|c s IH]; intros b; simpl.
  - intros _. left. now apply Escaped_plain.
  - intros H. apply andb_prop in H as [Hc Hs].
    destruct (c =? APOSTROPHE)%N eqn:Ea.
    + apply N.eqb_eq in Ea. subst c b. right. split; [reflexivity|].
      exists s. split; [reflexivity|].
      destruct (IH _ Hs) as [He | [Hf _]]; [assumption | discriminate].
    + apply N.eqb_neq in Ea. left.
      destruct (IH _ Hs) as [He | [Hb (s' & -> & He)]].
      * now apply Escaped_cons.
      * apply N.eqb_eq in Hb. subst c.
        apply (Escaped_quote [] s'); auto.
Qed.

Lemma Escaped_quotes_escaped (s : jsstring) : Escaped s -> quotes_escaped s.
Proof.
  induction 1 as [a Ha | a b Ha Hb IH]; intros i Hi.
  - apply nth_error_In in Hi. contradiction.
  - destruct (Nat.lt_ge_cases i (length a)) as [Hlt | Hge].
    + rewrite nth_error_app1 in Hi by assumption.
      apply nth_error_In in Hi. contradiction.
    + rewrite nth_error_app2 in Hi by assumption.
      destruct (i - length a) as [|[|k]] eqn:Ek; simpl in Hi.
      * discriminate.
      * exists (length a). split; [lia|].
        rewrite nth_error_app2 by lia. now rewrite Nat.sub_diag.
      * destruct (IH _ Hi) as (j & -> & Hj).
        exists (length a + 2 + j). split; [lia|].
        rewrite nth_error_app2 by lia.
        replace (length a + 2 + j - length a) with (S (S j)) by lia.
        exact Hj.
Qed.

Section SanitizeQuery.

Variable normalize_NFC : jsstring -> jsstring.

(** What the statement needs of the normalization: the empty string is
    normalized; a backslash and an apostrophe combine with nothing, so the
    text on either side of one is normalized on its own; and the
    characters at stake are never produced by normalizing other ones. *)
Hypothesis NFC_nil : normalize_NFC [] = [].
Hypothesis NFC_inert : forall a c b,
  c = BACKSLASH \/ c = APOSTROPHE ->
  normalize_NFC (a ++ c :: b) = normalize_NFC a ++ c :: normalize_NFC b.
Hypothesis NFC_fresh : forall c s,
  c = NUL \/ c = APOSTROPHE \/ c = LESS \/ c = GREATER ->
  In c (normalize_NFC s) -> In c s.

Lemma Escaped_normalize (s : jsstring) : Escaped s -> Escaped (normalize_NFC s).
Proof.
  induction 1 as [a Ha | a b Ha Hb IH].
  - apply Escaped_plain. intros H. apply NFC_fresh in H; auto.
  - rewrite NFC_inert by auto.
    change (APOSTROPHE :: b) with ([] ++ APOSTROPHE :: b).
    rewrite NFC_inert, NFC_nil by auto. simpl.
    apply Escaped_quote; [|assumption].
    intros H. apply NFC_fresh in H; auto.
Qed.

(** C9: in the result of [sanitizeSearchQuery] every single quote comes
    immediately after a backslash, and there is no ['<'], ['>'] or NUL; a
    value that is not a string gives the empty string. *)
Theorem sanitizeSearchQuery_escapes (q : jsstring) :
  let r := sanitizeSearchQuery normalize_NFC (Str q) in
  quotes_escaped r /\ ~ In LESS r /\ ~ In GREATER r /\ ~ In NUL r /\
  sanitizeSearchQuery normalize_NFC NotString = [].
Proof.
  simpl. repeat split.
  - apply Escaped_quotes_escaped, Escaped_normalize.
    destruct (escapedb_Escaped false (remove_nul (remove_angles (escape_quotes q))))
      as [H | [H _]]; [|assumption|discriminate].
    unfold remove_nul, remove_angles.
    do 2 (apply escapedb_filter; [reflexivity|]).
    apply escapedb_escape_quotes.
  - intros H. apply NFC_fresh in H; auto.
    unfold remove_nul, remove_angles in H.
    apply filter_In in H as [H _]. apply filter_In in H as [_ H]. discriminate.
  - intros H. apply NFC_fresh in H; auto.
    unfold remove_nul, remove_angles in H.
    apply filter_In in H as [H _]. apply filter_In in H as [_ H]. discriminate.
  - intros H. apply NFC_fresh in H; auto.
    unfold remove_nul in H. apply filter_In in H as [_ H]. discriminate.
Qed.

End SanitizeQuery.

(** ** Concrete runs *)

(** [indexOf] as the engine has it: the first occurrence from the position
    on, the position clamped to the length, the empty needle found at once. *)
Example indexOf_first : indexOf (lit "abcabc") (lit "bc") 0 = Some 1.
Proof. reflexivity. Qed.

Example indexOf_resumed : indexOf (lit "abcabc") (lit "bc") 2 = Some 4.
Proof. reflexivity. Qed.

Example indexOf_absent : indexOf (lit "abcabc") (lit "cb") 0 = None.
Proof. reflexivity. Qed.

Example indexOf_empty_clamped : indexOf (lit "abc") [] 10 = Some 3.
Proof. reflexivity. Qed.

Example sort_desc_numbers : Replace.sort_desc [1; 12; 3; 7] = [12; 7; 3; 1].
Proof. reflexivity. Qed.

Example split_blanks :
  split_space (lit " a  b ") = [[]; lit "a"; lit "b"; []] /\
  split_space [] = [[]] /\
  trim (lit "  a b  ") = lit "a b".
Proof. repeat split; reflexivity. Qed.

Example word_count_three :
  Stats.count_words (lit "  hello   wide world ") = 3.
Proof. reflexivity. Qed.

(** The example of the specification: in "Hello WORLD world" the query
    "world" is found, case-insensitively, at 6 and at 12. *)
Example search_hello_world :
  Replace.find_matches toLowerCase_latin 20 (lit "Hello WORLD world") (lit "world") false
  = Some [6; 12].
Proof. reflexivity. Qed.

(** C1: the text is U+0130 followed by " WORLD", seven code units, and
    its lower case has eight.  "world" is found at offset 3 of the lowered
    copy; both tools report the range 3 to 8, which in the text itself
    holds "ORLD", and [find_and_replace] sends that range to be deleted. *)
Theorem lowered_offsets_index_the_copy :
  let T := 304%N :: lit " WORLD" in
  let Q := lit "world" in
  length T = 7 /\ length (toLowerCase_latin T) = 8 /\
  Replace.find_and_replace toLowerCase_latin 10 (Resolved (Some (one_run T 1)))
                           Q (lit "earth") false true accept
  = Returned (Some [deleteContentRange 3 8; insertText 3 (lit "earth")])
             (Replace.replaced Q (lit "earth") 1) /\
  Find.find_matches toLowerCase_latin 10 T Q false (Num.of_Z 10)
  = Some [ {| Find.startIndex := 3; Find.endIndex := 8; Find.context := T |} ] /\
  slice T 3 8 = lit "ORLD" /\
  toLowerCase_latin (slice T 3 8) <> toLowerCase_latin Q.
Proof. vm_compute. repeat split; discriminate. Qed.

(** In the engine the scan of the empty needle makes all the iterations
    that the array allows, and the handler reports the RangeError. *)
Example empty_findText_fills_the_array :
  Replace.find_and_replace toLowerCase_latin (S (N.to_nat MAX_ARRAY_LENGTH))
                           (Resolved (Some (one_run (lit "abc") 1)))
                           [] (lit "X") true true accept
  = Returned None (Replace.failed INVALID_ARRAY_LENGTH).
Proof.
  unfold Replace.find_and_replace, Replace.find_matches.
  rewrite scan_empty_needle; reflexivity.
Qed.

(** C2: "ab" occurs in "ab ab" at 0 and at 3; without [replaceAll] the
    one pair sent edits the occurrence at 3, the last one. *)
Theorem single_replace_edits_last_match :
  Replace.find_matches toLowerCase_latin 10 (lit "ab ab") (lit "ab") true = Some [0; 3] /\
  Replace.find_and_replace toLowerCase_latin 10 (Resolved (Some (one_run (lit "ab ab") 1)))
                           (lit "ab") (lit "X") true false accept
  = Returned (Some [deleteContentRange 3 5; insertText 3 (lit "X")])
             (Replace.replaced (lit "ab") (lit "X") 1).
Proof. split; reflexivity. Qed.

(** C4: the document holds one text run, "hello", at the document
    indices 1 to 6.  The handler sends the flat offsets 0 and 5 as the
    range to delete; the run table of the specification maps the flat
    offset 0 to the document index 1. *)
Theorem flat_offsets_sent_as_indices :
  let content := one_run (lit "hello") 1 in
  Replace.find_and_replace toLowerCase_latin 10 (Resolved (Some content))
                           (lit "hello") (lit "howdy") true false accept
  = Returned (Some [deleteContentRange 0 5; insertText 0 (lit "howdy")])
             (Replace.replaced (lit "hello") (lit "howdy") 1) /\
  SpecIndex.extract_runs content
  = [ {| SpecIndex.flatStart := 0; SpecIndex.flatEnd := 5;
         SpecIndex.docStart := 1; SpecIndex.docEnd := 6 |} ] /\
  SpecIndex.mapToDocStart (SpecIndex.extract_runs content) 0 = Some 1.
Proof. repeat split; reflexivity. Qed.

(** C8 does not hold of the batch that is sent.  The paragraph holds "a",
    an inline object and "hello" followed by the line end, behind the
    section break: the text runs lie at the document indices 1 to 2 and 3
    to 9, and the extracted text is "ahello" and the line end.  "hello" is
    found at the flat offset 1 and replaced by "howdy", of the same length;
    the batch sent deletes the indices 1 to 6, which hold "a", the inline
    object and "hel", and inserts "howdy" at 1.  The text of the document
    is then "howdylo" and the line end: one code unit longer than before. *)
Theorem replace_all_changes_flat_length :
  let content := [ section_break;
                   paragraph_of [ text_run (lit "a") 1; inline_object 2;
                                  text_run (lit "hello" ++ NEWLINE) 3 ] ] in
  let d := Store.Element :: Store.text_slots (lit "a")
           ++ Store.Element :: Store.text_slots (lit "hello" ++ NEWLINE) in
  let sent := [deleteContentRange 1 6; insertText 1 (lit "howdy")] in
  Store.read_as d content = true /\
  length (lit "howdy") = length (lit "hello") /\
  Replace.find_and_replace toLowerCase_latin 10 (Resolved (Some content))
                           (lit "hello") (lit "howdy") true true accept
  = Returned (Some sent) (Replace.replaced (lit "hello") (lit "howdy") 1) /\
  exists d',
    Store.apply_requests sent d = Some d' /\
    Store.text d = lit "ahello" ++ NEWLINE /\
    Store.text d' = lit "howdylo" ++ NEWLINE /\
    length (Store.text d') <> length (Store.text d).
Proof.
  cbv zeta. split; [reflexivity|]. split; [reflexivity|]. split; [reflexivity|].
  eexists. split; [reflexivity|]. split; [reflexivity|]. split; [reflexivity|].
  vm_compute. discriminate.
Qed.

(** C6 fails: with the query "a" and [replaceAll] off, the handler
    returns the very same result for the text "a" (one match) and for the
    text "aa" (two matches), so no count of skipped matches read off the
    result can add up with [replacementsCount] to the matches found. *)
Lemma skip_accounting_counterexample :
  ~ exists skipped : Replace.Result -> nat,
      forall T sent result ms,
        In T [lit "a"; lit "aa"] ->
        Replace.find_and_replace toLowerCase_latin 10 (Resolved (Some (one_run T 1)))
                                 (lit "a") (lit "b") false false accept
        = Returned sent result ->
        Replace.find_matches toLowerCase_latin 10 T (lit "a") false = Some ms ->
        Replace.replacementsCount result + skipped result = length ms.
Proof.
  intros [skipped H].
  pose proof (H (lit "a") (Some [deleteContentRange 0 1; insertText 0 (lit "b")])
                (Replace.replaced (lit "a") (lit "b") 1) [0]
                (or_introl eq_refl) eq_refl eq_refl) as H1.
  pose proof (H (lit "aa") (Some [deleteContentRange 1 2; insertText 1 (lit "b")])
                (Replace.replaced (lit "a") (lit "b") 1) [0; 1]
                (or_intror (or_introl eq_refl)) eq_refl eq_refl) as H2.
  simpl length in H1, H2. simpl Replace.replacementsCount in H1, H2. lia.
Qed.

Lemma edits_descend_in_pairs_witness :
  let sent := [deleteContentRange 3 5; insertText 3 (lit "X");
               deleteContentRange 0 2; insertText 0 (lit "X")] in
  exists ms,
    Replace.find_matches toLowerCase_latin 10
      (Doc.documentText (body_content (Some (one_run (lit "ab ab") 1))))
      (lit "ab") false = Some ms /\
    let planned := if true then rev ms else firstn 1 (rev ms) in
    sent = flat_map (fun m => [deleteContentRange m (m + length (lit "ab"));
                               insertText m (lit "X")]) planned /\
    StronglySorted (fun a b => b < a) planned /\
    forall done todo t t',
      sent = done ++ todo -> Store.apply_requests done t = Some t' ->
      forall r, In r todo ->
        firstn (Store.position r) t' = firstn (Store.position r) t.
Proof.
  apply (edits_descend_in_pairs toLowerCase_latin 10
           (Some (one_run (lit "ab ab") 1)) (lit "ab") (lit "X") false true accept
           _ (Replace.replaced (lit "ab") (lit "X") 2)).
  reflexivity.
Defined.

Lemma replacements_count_reported_witness :
  let doc := Resolved (Some (one_run (lit "ab ab") 1)) in
  let result := Replace.replaced (lit "ab") (lit "X") 1 in
  (Replace.isError result = true /\ Replace.replacementsCount result = 0) \/
  (Replace.isError result = false /\
   exists body ms,
     doc = Resolved body /\
     Replace.find_matches toLowerCase_latin 10 (Doc.documentText (body_content body))
                          (lit "ab") false = Some ms /\
     Replace.replacementsCount result =
       if false then length ms else Nat.min 1 (length ms)).
Proof.
  apply (replacements_count_reported toLowerCase_latin 10
           (Resolved (Some (one_run (lit "ab ab") 1))) (lit "ab") (lit "X")
           false false accept
           (Some [deleteContentRange 3 5; insertText 3 (lit "X")])).
  reflexivity.
Defined.

Lemma matches_do_not_overlap_witness :
  let T := lit "Hello WORLD world" in
  let Q := lit "world" in
  Find.find_matches toLowerCase_latin 10 T Q false (Num.of_Z 10)
  = Some [Find.match_at T Q 6; Find.match_at T Q 12] /\
  Find.endIndex (Find.match_at T Q 6) <= Find.startIndex (Find.match_at T Q 12).
Proof.
  intros T Q. split; [reflexivity|].
  destruct (matches_do_not_overlap toLowerCase_latin 10 T Q false (Num.of_Z 10))
    as (_ & H & _).
  - discriminate.
  - simpl. lia.
  - apply (H [Find.match_at T Q 6; Find.match_at T Q 12] eq_refl).
    exists 0. split; reflexivity.
Defined.

Lemma empty_query_not_rejected_witness :
  let body := Some (one_run (lit "abc") 1) in
  Replace.find_and_replace toLowerCase_latin 1000 (Resolved body) [] (lit "X")
                           false true accept
  = Returned None (Replace.failed INVALID_ARRAY_LENGTH) /\
  Find.search_text_in_document toLowerCase_latin 1000 (Resolved body) [] false
                               (Num.Finite (5 # 2))
  = Returned None (Find.found [] (repeat (Find.match_at (lit "abc") [] 0) 3)).
Proof.
  exact (empty_query_not_rejected toLowerCase_latin 1000 (Some (one_run (lit "abc") 1))
           (lit "X") false true accept (Num.Finite (5 # 2)) eq_refl).
Defined.

Lemma word_count_statistics_witness :
  let blank := Some [ section_break;
                      paragraph_of [ text_run (lit "  ") 1; inline_object 3;
                                     text_run (lit " " ++ NEWLINE) 4 ];
                      paragraph_of [ {| Doc.startIndex := Some 6;
                                        Doc.endIndex := Some 6;
                                        Doc.textRun := Some {| Doc.content := None |} |} ] ] in
  let prose := Some [ section_break;
                      paragraph_of [ text_run (lit "Hello ") 1;
                                     text_run (lit "world" ++ NEWLINE) 7 ] ] in
  Stats.wordCount (Stats.get_word_count (Resolved blank)) = 0 /\
  Stats.characterCount (Stats.get_word_count (Resolved blank)) = 4 /\
  Stats.characterCount (Stats.get_word_count (Resolved prose)) = 12.
Proof.
  intros blank prose. split; [|split].
  - apply (word_count_statistics blank). repeat constructor.
  - exact (proj2 (proj2 (word_count_statistics blank))).
  - exact (proj2 (proj2 (word_count_statistics prose))).
Defined.

Lemma sanitizeSearchQuery_escapes_witness :
  let r := sanitizeSearchQuery normalize_latin (Str (lit "a'b<c>'")) in
  r = [97; 92; 39; 98; 99; 92; 39]%N /\ quotes_escaped r.
Proof.
  split; [reflexivity|].
  apply (sanitizeSearchQuery_escapes normalize_latin).
  - reflexivity.
  - intros a c b _. reflexivity.
  - intros c s _ H. exact H.
Defined.

(** ** Further properties of the search and replace tools *)

(** *** [indexOf] finds the first occurrence *)

Lemma prefixb_app (p r : jsstring) : prefixb p (p ++ r) = true.
Proof.
  induction p as [|a p IH]; simpl; [reflexivity|].
  now rewrite N.eqb_refl, IH.
Qed.

Lemma prefixb_occurs (s needle : jsstring) (k : nat) :
  k <= length s -> (prefixb needle (skipn k s) = true <-> occurs s needle k).
Proof.
  intros Hk. unfold occurs, slice.
  replace (k + length needle - k) with (length needle) by lia. split.
  - intros H. apply prefixb_firstn in H as [H1 H2].
    rewrite length_skipn in H2. split; [lia | assumption].
  - intros [H1 H2]. rewrite <- (firstn_skipn (length needle) (skipn k s)).
    rewrite H2. apply prefixb_app.
Qed.

Lemma find_from_first (s needle : jsstring) (k m : nat) :
  find_from s needle k = Some m ->
  forall j, j < m - k -> prefixb needle (skipn j s) = false.
Proof.
  revert k; induction s as [|c s IH]; intros k; simpl.
  - destruct (prefixb needle []); [|discriminate]. intros [= <-] j Hj. lia.
  - destruct (prefixb needle (c :: s)) eqn:E.
    + intros [= <-] j Hj. lia.
    + intros H [|j] Hj; [exact E|]. simpl. apply (IH _ H). lia.
Qed.

Lemma find_from_None (s needle : jsstring) (k : nat) :
  find_from s needle k = None ->
  forall j, j <= length s -> prefixb needle (skipn j s) = false.
Proof.
  revert k; induction s as [|c s IH]; intros k; simpl.
  - destruct (prefixb needle []) eqn:E; [discriminate|].
    intros _ j Hj. now replace j with 0 by lia.
  - destruct (prefixb needle (c :: s)) eqn:E; [discriminate|].
    intros H [|j] Hj; [exact E|]. simpl. apply (IH _ H). lia.
Qed.

(** Between the clamped start position and the offset [indexOf] returns
    the needle does not occur. *)
Lemma indexOf_minimal (s needle : jsstring) (p m : nat) :
  indexOf s needle p = Some m ->
  forall k, Nat.min p (length s) <= k -> k < m -> ~ occurs s needle k.
Proof.
  unfold indexOf. intros H k Hk Hm Ho.
  assert (Hle : k <= length s) by (destruct Ho; lia).
  apply prefixb_occurs in Ho; [|assumption].
  pose proof (find_from_first _ _ _ _ H (k - Nat.min p (length s))) as Hf.
  rewrite skipn_skipn in Hf.
  replace (k - Nat.min p (length s) + Nat.min p (length s)) with k in Hf by lia.
  rewrite Hf in Ho by lia. discriminate.
Qed.

(** When [indexOf] returns -1 the needle does not occur from the clamped
    start position on. *)
Lemma indexOf_None_free (s needle : jsstring) (p : nat) :
  indexOf s needle p = None ->
  forall k, Nat.min p (length s) <= k -> ~ occurs s needle k.
Proof.
  unfold indexOf. intros H k Hk Ho.
  assert (Hle : k <= length s) by (destruct Ho; lia).
  apply prefixb_occurs in Ho; [|assumption].
  pose proof (find_from_None _ _ _ H (k - Nat.min p (length s))) as Hf.
  rewrite skipn_skipn, length_skipn in Hf.
  replace (k - Nat.min p (length s) + Nat.min p (length s)) with k in Hf by lia.
  rewrite Hf in Ho by lia. discriminate.
Qed.

Lemma indexOf_occurs (s needle : jsstring) (p m : nat) :
  indexOf s needle p = Some m -> occurs s needle m.
Proof. intros H. apply indexOf_Some in H. unfold occurs. tauto. Qed.

(** *** The scan of [find_and_replace] is exhaustive *)

Lemma scan_complete (docText searchText : jsstring) (fuel index : nat)
      (matches result : list nat) :
  Replace.scan fuel docText searchText index matches = Some result ->
  exists ms, result = matches ++ ms /\
             complete_chain docText searchText (length searchText) index ms.
Proof.
  revert index matches; induction fuel as [|fuel IH]; intros index matches; simpl.
  - discriminate.
  - destruct (indexOf docText searchText index) as [i|] eqn:E.
    + intros H. apply IH in H as (ms & -> & Hc).
      exists (i :: ms). rewrite <- app_assoc. simpl. auto.
    + intros [= <-]. exists []. rewrite app_nil_r. simpl. auto.
Qed.

Lemma complete_chain_covers (s needle : jsstring) (from : nat) (ms : list nat) :
  needle <> [] ->
  complete_chain s needle (length needle) from ms ->
  forall p, Nat.min from (length s) <= p -> occurs s needle p ->
            exists m, In m ms /\ m <= p /\ p < m + length needle.
Proof.
  intros Hne. revert from; induction ms as [|m rest IH]; intros from Hc p Hp Ho.
  - simpl in Hc. exfalso. exact (indexOf_None_free _ _ _ Hc p Hp Ho).
  - destruct Hc as [H1 Hc].
    destruct (Nat.lt_ge_cases p m) as [Hlt | Hge].
    + exfalso. exact (indexOf_minimal _ _ _ _ H1 p Hp Hlt Ho).
    + destruct (Nat.lt_ge_cases p (m + length needle)) as [Hin | Hout].
      * exists m. simpl. auto.
      * destruct (IH _ Hc p) as (m' & Hm' & Hr); [lia | assumption |].
        exists m'. simpl. auto.
Qed.

(** The scan of [search_text_in_document] follows a complete chain of
    occurrences until the bound on the number of results is reached. *)
Lemma find_scan_follows (documentText docTextLower searchTextLower searchText : jsstring)
      (maxResults : Num.Number) (ms : list nat) (from fuel : nat)
      (matches : list Find.Match) :
  complete_chain docTextLower searchTextLower (length searchText) from ms ->
  let followed :=
    match pushes_allowed (Find.limit maxResults) with
    | Some k => firstn (k - length matches) ms
    | None => ms
    end in
  length followed < fuel ->
  Find.scan fuel documentText docTextLower searchTextLower searchText maxResults
            from matches =
  Some (matches ++ map (Find.match_at documentText searchText) followed).
Proof.
  cbv zeta.
  revert from fuel matches; induction ms as [|m rest IH]; intros from fuel matches Hc Hf;
    (destruct fuel as [|fuel]; [lia|]); cbn [Find.scan]; simpl in Hc.
  - rewrite Hc. destruct (pushes_allowed _); rewrite ?firstn_nil; simpl;
      now rewrite app_nil_r.
  - destruct Hc as [H1 Hc]. rewrite H1, ltb_count.
    specialize (IH (m + length searchText) fuel
                   (matches ++ [Find.match_at documentText searchText m]) Hc).
    rewrite length_app in IH. cbn [length] in IH.
    destruct (pushes_allowed _) as [k|].
    + destruct (length matches <? k) eqn:E.
      * apply Nat.ltb_lt in E.
        replace (k - length matches) with (S (k - (length matches + 1))) in Hf |- * by lia.
        cbn [firstn length map] in Hf |- *.
        rewrite IH by lia. now rewrite <- app_assoc.
      * apply Nat.ltb_ge in E. replace (k - length matches) with 0 by lia.
        simpl. now rewrite app_nil_r.
    + cbn [length map] in Hf |- *. rewrite IH by lia. now rewrite <- app_assoc.
Qed.

Lemma find_scan_bound (documentText docTextLower searchTextLower searchText : jsstring)
      (maxResults : Num.Number) (fuel index k : nat) (matches result : list Find.Match) :
  pushes_allowed (Find.limit maxResults) = Some k ->
  Find.scan fuel documentText docTextLower searchTextLower searchText maxResults
            index matches = Some result ->
  length result <= Nat.max (length matches) k.
Proof.
  intros Hk.
  revert index matches; induction fuel as [|fuel IH]; intros index matches;
    cbn [Find.scan]; [discriminate|].
  destruct (indexOf docTextLower searchTextLower index) as [i|].
  - rewrite ltb_count, Hk. destruct (length matches <? k) eqn:E.
    + apply Nat.ltb_lt in E. intros H. apply IH in H.
      rewrite length_app in H. simpl in H. lia.
    + intros [= <-]. lia.
  - intros [= <-]. lia.
Qed.

Section SearchProperties.

Variable toLowerCase : jsstring -> jsstring.

Local Abbreviation needle := (Replace.needle toLowerCase).
Local Abbreviation haystack := (Replace.haystack toLowerCase).

Lemma find_matches_complete (fuel : nat) (T Q : jsstring) (matchCase : bool)
      (ms : list nat) :
  Replace.find_matches toLowerCase fuel T Q matchCase = Some ms ->
  needle Q matchCase <> [] /\
  complete_chain (haystack T matchCase) (needle Q matchCase)
                 (length (needle Q matchCase)) 0 ms.
Proof.
  unfold Replace.find_matches. intros H. split.
  - intros E. rewrite scan_empty_needle in H by exact E. discriminate.
  - apply scan_complete in H as (ms' & -> & Hc). exact Hc.
Qed.

(** The scan of [find_and_replace] misses no occurrence: wherever the
    needle occurs in the scanned text, a match found covers that offset. *)
Theorem no_occurrence_missed (fuel : nat) (T Q : jsstring) (matchCase : bool)
        (ms : list nat) (p : nat) :
  Replace.find_matches toLowerCase fuel T Q matchCase = Some ms ->
  occurs (haystack T matchCase) (needle Q matchCase) p ->
  exists m, In m ms /\ m <= p /\ p < m + length (needle Q matchCase).
Proof.
  intros H Ho. apply find_matches_complete in H as [Hne Hc].
  apply (complete_chain_covers _ _ _ _ Hne Hc p); [simpl; lia | assumption].
Qed.

(** [find_and_replace] answers "No matches found" exactly when the needle
    occurs nowhere in the scanned text, and then it has not called
    [batchUpdate]; when it has called it, the needle occurs in the text. *)
Theorem nothing_sent_iff_absent (fuel : nat) (body : option Doc.Body) (Q R : jsstring)
        (matchCase replaceAll : bool) (batchUpdate : list Request -> Reply unit)
        (sent : option (list Request)) (result : Replace.Result) :
  0 < fuel ->
  Replace.find_and_replace toLowerCase fuel (Resolved body) Q R matchCase replaceAll
                           batchUpdate = Returned sent result ->
  (result = Replace.no_match Q <->
   forall p, ~ occurs (haystack (Doc.documentText (body_content body)) matchCase)
                      (needle Q matchCase) p) /\
  (result = Replace.no_match Q -> sent = None) /\
  (sent <> None ->
   exists p, occurs (haystack (Doc.documentText (body_content body)) matchCase)
                    (needle Q matchCase) p).
Proof.
  intros Hfuel H.
  assert (Hfound : forall ms m,
             Replace.find_matches toLowerCase fuel (Doc.documentText (body_content body))
                                  Q matchCase = Some (m :: ms) ->
             occurs (haystack (Doc.documentText (body_content body)) matchCase)
                    (needle Q matchCase) m).
  { intros ms m Hms. apply find_matches_chain in Hms. destruct Hms as [H1 _].
    exact (indexOf_occurs _ _ _ _ H1). }
  assert (Hfirst : forall p,
             occurs (haystack (Doc.documentText (body_content body)) matchCase)
                    (needle Q matchCase) p ->
             Replace.find_matches toLowerCase fuel (Doc.documentText (body_content body))
                                  Q matchCase <> Some []).
  { intros p Ho Hms. apply find_matches_complete in Hms as [_ Hc]. simpl in Hc.
    apply (indexOf_None_free _ _ _ Hc p); [lia | assumption]. }
  destruct sent as [sent|].
  - apply sent_inv in H as (ms & Hms & Hne & _ & Hr).
    destruct ms as [|m ms]; [congruence|]. pose proof (Hfound _ _ Hms) as Ho.
    assert (Hres : result <> Replace.no_match Q).
    { destruct (batchUpdate _); subst result; discriminate. }
    split; [split|split].
    + intros E. now destruct Hres.
    + intros Hno. destruct (Hno m Ho).
    + intros E. now destruct Hres.
    + intros _. now exists m.
  - apply unsent_inv in H as [[Hms ->] | [Hms ->]].
    + split; [split|split]; [| reflexivity | reflexivity | congruence].
      intros _ p Ho. exact (Hfirst p Ho Hms).
    + split; [split|split]; [discriminate | | discriminate | congruence].
      intros Hno. exfalso. unfold Replace.find_matches in Hms.
      destruct fuel as [|fuel]; [lia|]. simpl in Hms.
      destruct (indexOf _ _ 0) as [i|] eqn:E; [|discriminate].
      exact (Hno i (indexOf_occurs _ _ _ _ E)).
Qed.

(** [search_text_in_document] reports the first matches that
    [find_and_replace] finds, as many as the bound [maxResults || 10]
    allows (three for the bound 2.5, all of them for an infinite one), when
    lowering keeps the length of the query (or with [matchCase]) and the
    array takes them. *)
Theorem search_reports_first_matches (fuel fuel' : nat) (T Q : jsstring)
        (matchCase : bool) (maxResults : Num.Number) (ms : list nat) :
  length (needle Q matchCase) = length Q ->
  Replace.find_matches toLowerCase fuel T Q matchCase = Some ms ->
  length (first_allowed (Find.limit maxResults) ms) < fuel' ->
  Find.find_matches toLowerCase fuel' T Q matchCase maxResults =
  Some (map (Find.match_at T Q) (first_allowed (Find.limit maxResults) ms)).
Proof.
  intros Hlen H Hf. apply find_matches_complete in H as [_ Hc].
  rewrite Hlen in Hc. unfold Find.find_matches.
  pose proof (find_scan_follows T (haystack T matchCase) (needle Q matchCase) Q
                                maxResults ms 0 fuel' [] Hc) as Hs.
  unfold first_allowed in Hf |- *. cbv zeta in Hs. cbn [length app] in Hs.
  destruct (pushes_allowed _); rewrite ?Nat.sub_0_r in Hs; exact (Hs Hf).
Qed.

(** [search_text_in_document] never reports more matches than the bound
    [maxResults || 10] allows: no more than the bound rounded up, and none
    when it is negative; every match ends [searchText.length] after its
    start; and with [matchCase] the text of every reported range is the
    search text. *)
Theorem search_matches_bounded_and_exact (fuel : nat) (T Q : jsstring)
        (matchCase : bool) (maxResults : Num.Number) (ms : list Find.Match) :
  Find.find_matches toLowerCase fuel T Q matchCase maxResults = Some ms ->
  (forall k, pushes_allowed (Find.limit maxResults) = Some k -> length ms <= k) /\
  (forall m, In m ms -> Find.endIndex m = Find.startIndex m + length Q) /\
  (matchCase = true ->
   forall m, In m ms ->
     Find.endIndex m <= length T /\
     slice T (Find.startIndex m) (Find.endIndex m) = Q).
Proof.
  intros H. split; [|split].
  - intros k Hk. unfold Find.find_matches in H.
    apply (find_scan_bound _ _ _ _ _ _ _ k _ _ Hk) in H. simpl in H. lia.
  - apply find_find_matches_chain in H as [_ Hf]. rewrite Forall_forall in Hf.
    intros m Hm. rewrite (Hf m Hm). reflexivity.
  - intros -> m Hm. apply find_find_matches_chain in H as [Hc Hf].
    rewrite Forall_forall in Hf. rewrite (Hf m Hm). simpl in Hc |- *.
    apply (chain_in _ _ _ _ _ Hc). now apply in_map.
Qed.

End SearchProperties.

(** The context of a reported match is cut from the original text: it is
    at most 40 code units longer than the search text, and when the range
    of the match lies within the text it holds that range, behind at most
    20 code units of leading context. *)
Theorem context_holds_the_match (T Q : jsstring) (index : nat) :
  let m := Find.match_at T Q index in
  length (Find.context m) <= length Q + 40 /\
  (Find.endIndex m <= length T ->
   slice (Find.context m) (Nat.min index 20) (Nat.min index 20 + length Q)
   = slice T (Find.startIndex m) (Find.endIndex m)).
Proof.
  simpl. unfold substring, slice. split.
  - rewrite length_firstn, length_skipn. lia.
  - intros Hend.
    replace (Nat.min (Nat.min (index - 20) (length T))
                     (Nat.min (Nat.min (length T) (index + length Q + 20)) (length T)))
      with (index - 20) by lia.
    rewrite skipn_firstn_comm, firstn_firstn, skipn_skipn.
    replace (Nat.min index 20 + (index - 20)) with index by lia.
    f_equal. lia.
Qed.

(** ** Further properties of [get_word_count] *)

Lemma split_go_words (in_sep : bool) (cur s : jsstring) :
  (in_sep = true -> cur = []) ->
  length (filter (fun word => 0 <? length word) (split_go in_sep cur s)) =
  match cur with
  | [] => word_starts true s
  | _ :: _ => 1 + word_starts false s
  end.
Proof.
  revert in_sep cur; induction s as [|c s IH]; intros in_sep cur Hsep;
    cbn [split_go word_starts].
  - destruct cur; reflexivity.
  - destruct (is_space c) eqn:E.
    + destruct in_sep.
      * rewrite (Hsep eq_refl). now rewrite IH.
      * pose proof (IH true [] (fun _ => eq_refl)) as IH'. cbn beta iota in IH'.
        destruct cur as [|x cur]; cbn [filter length Nat.ltb Nat.leb];
          [exact IH' | cbn [Nat.add]; f_equal; exact IH'].
    + rewrite IH by discriminate.
      destruct cur; reflexivity.
Qed.

Lemma word_starts_blank (b : bool) (sp : jsstring) :
  forallb is_space sp = true -> word_starts b sp = 0.
Proof.
  revert b; induction sp as [|c sp IH]; intros b; simpl; [reflexivity|].
  intros H. apply andb_prop in H as [Hc Hs]. rewrite Hc. auto.
Qed.

(** White space between two texts separates their words. *)
Lemma word_starts_separated (b : bool) (a rest : jsstring) (c : N) :
  is_space c = true ->
  word_starts b (a ++ c :: rest) = word_starts b a + word_starts true rest.
Proof.
  intros Hc. revert b; induction a as [|x a IH]; intros b; simpl.
  - now rewrite Hc.
  - destruct (is_space x); rewrite IH; lia.
Qed.

Lemma word_starts_trailing (b : bool) (a sp : jsstring) :
  forallb is_space sp = true -> word_starts b (a ++ sp) = word_starts b a.
Proof.
  intros Hsp. destruct sp as [|c sp]; [now rewrite app_nil_r|].
  simpl in Hsp. apply andb_prop in Hsp as [Hc Hsp].
  rewrite word_starts_separated by assumption.
  rewrite (word_starts_blank true sp Hsp). lia.
Qed.

Lemma word_starts_drop_space (s : jsstring) :
  word_starts true (drop_space s) = word_starts true s.
Proof.
  induction s as [|c s IH]; simpl; [reflexivity|].
  destruct (is_space c) eqn:E; [assumption|]. simpl. now rewrite E.
Qed.

Lemma drop_space_split (r : jsstring) :
  exists sp, forallb is_space sp = true /\ r = sp ++ drop_space r.
Proof.
  induction r as [|c r (sp & Hsp & Hr)]; simpl.
  - exists []. auto.
  - destruct (is_space c) eqn:E.
    + exists (c :: sp). simpl. rewrite E, Hsp. split; [reflexivity | congruence].
    + exists []. auto.
Qed.

Lemma word_starts_trim (s : jsstring) :
  word_starts true (trim s) = word_starts true s.
Proof.
  unfold trim. rewrite <- (word_starts_drop_space s).
  generalize (drop_space s) as t. intros t.
  destruct (drop_space_split (rev t)) as (sp & Hsp & Hr).
  apply (f_equal (@rev N)) in Hr. rewrite rev_involutive, rev_app_distr in Hr.
  rewrite Hr at 2. symmetry. apply word_starts_trailing.
  apply forallb_forall. intros x Hx. apply in_rev in Hx.
  rewrite forallb_forall in Hsp. auto.
Qed.

(** The expression that counts the words counts the maximal runs of code
    units that are not white space. *)
Lemma count_words_word_starts (s : jsstring) :
  Stats.count_words s = word_starts true s.
Proof.
  unfold Stats.count_words, split_space.
  rewrite split_go_words by discriminate. apply word_starts_trim.
Qed.

Lemma word_starts_le (b : bool) (s : jsstring) :
  word_starts b s <= Stats.count_no_spaces s.
Proof.
  unfold Stats.count_no_spaces.
  revert b; induction s as [|c s IH]; intros b; simpl; [lia|].
  destruct (is_space c); simpl.
  - apply IH.
  - specialize (IH false). destruct b; lia.
Qed.

(** [wordCount] is the number of words in the usual sense: the code
    units of the extracted text that are not white space and stand first
    or after white space, whatever white space leads, trails or separates. *)
Theorem word_count_counts_runs (body : option Doc.Body) :
  Stats.wordCount (Stats.get_word_count (Resolved body)) =
  word_starts true (Doc.documentText (body_content body)).
Proof.
  simpl. unfold Stats.count_words, split_space.
  rewrite split_go_words by discriminate.
  apply word_starts_trim.
Qed.

(** Two texts joined by a white-space code unit have the words of both. *)
Theorem count_words_separated (a b : jsstring) (c : N) :
  is_space c = true ->
  Stats.count_words (a ++ c :: b) = Stats.count_words a + Stats.count_words b.
Proof.
  intros Hc. rewrite !count_words_word_starts. now apply word_starts_separated.
Qed.

(** Joined without white space between them, two texts have the words of
    both, less one when a word runs across the joint. *)
Theorem count_words_joined (a b : jsstring) :
  Stats.count_words (a ++ b) <= Stats.count_words a + Stats.count_words b /\
  Stats.count_words a + Stats.count_words b <= S (Stats.count_words (a ++ b)).
Proof.
  rewrite !count_words_word_starts.
  assert (H : forall f, word_starts f b <= word_starts true b
                        /\ word_starts true b <= S (word_starts f b)).
  { intros f. destruct b as [|x b]; simpl; [lia|].
    destruct (is_space x); destruct f; lia. }
  assert (G : forall f, exists g, word_starts f (a ++ b) = word_starts f a + word_starts g b).
  { induction a as [|x a IH]; intros f; simpl.
    - exists f. reflexivity.
    - destruct (is_space x).
      + destruct (IH true) as (g & ->). eauto.
      + destruct (IH false) as (g & ->). exists g. lia. }
  destruct (G true) as (g & ->). specialize (H g). lia.
Qed.

(** Every word has a code unit that is not white space, so [wordCount]
    is at most the count of such code units, which is at most
    [characterCount]. *)
Theorem word_count_at_most_characters (body : option Doc.Body) :
  let result := Stats.get_word_count (Resolved body) in
  let T := Doc.documentText (body_content body) in
  Stats.wordCount result <= Stats.count_no_spaces T /\
  Stats.count_no_spaces T <= Stats.characterCount result /\
  (Stats.wordCount result = Stats.characterCount result ->
   Stats.characterCount result <= 1).
Proof.
  simpl. set (T := Doc.documentText (body_content body)).
  rewrite count_words_word_starts. repeat split.
  - apply word_starts_le.
  - unfold Stats.count_no_spaces. apply filter_length_le.
  - assert (H : forall b s, word_starts b s = length s -> length s <= 1
                             /\ (s <> [] -> b = true)).
    { intros b s; revert b; induction s as [|c s IH]; intros b; simpl; [split; [lia|congruence]|].
      destruct (is_space c).
      - intros E. pose proof (word_starts_le true s).
        pose proof (filter_length_le (fun c => negb (is_space c)) s).
        unfold Stats.count_no_spaces in *. lia.
      - intros E. pose proof (word_starts_le false s) as L1.
        pose proof (filter_length_le (fun c => negb (is_space c)) s) as L2.
        unfold Stats.count_no_spaces in *.
        assert (E' : word_starts false s = length s) by (destruct b; lia).
        destruct (IH false E') as [Hl Hb].
        destruct s as [|y s]; [split; [simpl; lia | destruct b; [auto | simpl in E; lia]]|].
        specialize (Hb ltac:(discriminate)). discriminate. }
    intros E. apply (H true T E).
Qed.

(** If every paragraph of the document ends in white space (Google Docs
    ends each with a line break) or is empty, the word count of the
    document is the sum of the word counts of its paragraphs. *)
Theorem word_count_sums_paragraphs (content : Doc.Body) :
  (forall element p,
     In element content -> Doc.paragraph element = Some p ->
     Doc.paragraph_text p = [] \/
     exists a c, Doc.paragraph_text p = a ++ [c] /\ is_space c = true) ->
  Stats.wordCount (Stats.get_word_count (Resolved (Some content))) =
  list_sum (map (fun element =>
                   match Doc.paragraph element with
                   | Some p => Stats.count_words (Doc.paragraph_text p)
                   | None => 0
                   end) content).
Proof.
  simpl. rewrite count_words_word_starts. unfold Doc.documentText.
  induction content as [|element content IH]; intros H; simpl; [reflexivity|].
  rewrite <- IH by (intros el p Hin; apply H; now right).
  destruct (Doc.paragraph element) as [p|] eqn:E; [|reflexivity].
  rewrite count_words_word_starts.
  destruct (H element p (or_introl eq_refl) E) as [-> | (a & c & -> & Hc)];
    [reflexivity|].
  rewrite <- app_assoc. simpl.
  rewrite !word_starts_separated by assumption. simpl. lia.
Qed.

(** ** The validators *)

Import Validate.

Lemma isInteger_spec (q : Q) :
  Num.isInteger (Num.Finite q) = true <-> exists z, Qeq q (inject_Z z).
Proof.
  simpl. rewrite Z.eqb_eq. split.
  - intros H. exists (Qnum q / Zpos (Qden q))%Z.
    unfold Qeq. simpl. rewrite Z.mul_1_r.
    apply Z.div_exact in H; [|discriminate]. rewrite H at 1. apply Z.mul_comm.
  - intros [z Hz]. unfold Qeq in Hz. simpl in Hz. rewrite Z.mul_1_r in Hz.
    rewrite Hz. apply Z.mod_mul. discriminate.
Qed.

Lemma ltb_integer (q : Q) (z k : Z) :
  Qeq q (inject_Z z) -> Num.ltb (Num.Finite q) (Num.of_Z k) = (z <? k)%Z.
Proof.
  intros Hq. simpl.
  destruct (Qle_bool (inject_Z k) q) eqn:E; simpl; symmetry.
  - apply Qle_bool_iff in E. rewrite Hq, <- Zle_Qle in E. apply Z.ltb_ge. exact E.
  - apply Z.ltb_lt. apply Z.lt_nge. intros Hle.
    rewrite Zle_Qle in Hle. rewrite <- Hq in Hle. apply Qle_bool_iff in Hle. congruence.
Qed.

Lemma gtb_integer (q : Q) (z k : Z) :
  Qeq q (inject_Z z) -> Num.gtb (Num.Finite q) (Num.of_Z k) = (k <? z)%Z.
Proof.
  intros Hq. unfold Num.gtb. simpl.
  destruct (Qle_bool q (inject_Z k)) eqn:E; simpl; symmetry.
  - apply Qle_bool_iff in E. rewrite Hq, <- Zle_Qle in E. apply Z.ltb_ge. exact E.
  - apply Z.ltb_lt. apply Z.lt_nge. intros Hle.
    rewrite Zle_Qle in Hle. rewrite <- Hq in Hle. apply Qle_bool_iff in Hle. congruence.
Qed.

Lemma geb_integers (q1 q2 : Q) (z1 z2 : Z) :
  Qeq q1 (inject_Z z1) -> Qeq q2 (inject_Z z2) ->
  Num.geb (Num.Finite q1) (Num.Finite q2) = (z2 <=? z1)%Z.
Proof.
  intros H1 H2. unfold Num.geb. simpl.
  destruct (Qle_bool q2 q1) eqn:E; symmetry.
  - apply Qle_bool_iff in E. rewrite H1, H2, <- Zle_Qle in E. now apply Z.leb_le.
  - apply Z.leb_gt. apply Z.lt_nge. intros Hle.
    rewrite Zle_Qle in Hle. rewrite <- H1, <- H2 in Hle.
    apply Qle_bool_iff in Hle. congruence.
Qed.

(** [validateIndex] passes exactly the integers from 0 to 1000000: a
    fraction, NaN, an infinity or a value that is not a number throws. *)
Lemma validateIndex_passes (index : Num.Arg) (fieldName : jsstring) :
  validateIndex index fieldName = Passes <->
  exists q z, index = Num.Number_ (Num.Finite q) /\ Qeq q (inject_Z z) /\
              (0 <= z <= 1000000)%Z.
Proof.
  split.
  - destruct index as [[q| | |]|]; simpl; try discriminate.
    destruct (Z.eqb_spec (Qnum q mod Z.pos (Qden q)) 0) as [Hi|]; [|discriminate].
    assert (Hz : exists z, Qeq q (inject_Z z))
      by (apply isInteger_spec; simpl; now apply Z.eqb_eq).
    destruct Hz as [z Hz]. simpl.
    pose proof (ltb_integer q z 0 Hz) as L. pose proof (gtb_integer q z 1000000 Hz) as G.
    unfold Num.gtb, Num.of_Z in L, G. simpl in L, G. rewrite L, G.
    destruct (Z.ltb_spec z 0); [discriminate|].
    destruct (Z.ltb_spec 1000000 z); [discriminate|].
    intros _. exists q, z. repeat split; auto; lia.
  - intros (q & z & -> & Hz & Hr). unfold validateIndex.
    replace (Num.isInteger (Num.Finite q)) with true
      by (symmetry; apply isInteger_spec; eauto).
    rewrite (ltb_integer q z 0 Hz), (gtb_integer q z 1000000 Hz). simpl.
    destruct (Z.ltb_spec z 0); [lia|]. destruct (Z.ltb_spec 1000000 z); [lia|].
    reflexivity.
Qed.

(** [validateRange] passes exactly the pairs of integers with
    [0 <= startIndex < endIndex <= 1000000] that span at most 100000: in
    particular never an empty or reversed range. *)
Theorem validateRange_passes (startIndex endIndex : Num.Arg) :
  validateRange startIndex endIndex = Passes <->
  exists qs qe s e,
    startIndex = Num.Number_ (Num.Finite qs) /\
    endIndex = Num.Number_ (Num.Finite qe) /\
    Qeq qs (inject_Z s) /\ Qeq qe (inject_Z e) /\
    (0 <= s)%Z /\ (s < e)%Z /\ (e <= 1000000)%Z /\ (e - s <= 100000)%Z.
Proof.
  unfold validateRange. split.
  - destruct (validateIndex startIndex (lit "startIndex")) eqn:Es; [|discriminate].
    destruct (validateIndex endIndex (lit "endIndex")) eqn:Ee; [|discriminate].
    apply validateIndex_passes in Es as (qs & s & -> & Hs & Rs).
    apply validateIndex_passes in Ee as (qe & e & -> & He & Re).
    rewrite (geb_integers qs qe s e Hs He).
    assert (Hd : Qeq (Qminus qe qs) (inject_Z (e - s))).
    { rewrite Hs, He. unfold Z.sub. rewrite inject_Z_plus, inject_Z_opp. reflexivity. }
    unfold Num.sub. rewrite (gtb_integer (Qminus qe qs) (e - s) 100000 Hd).
    destruct (Z.leb_spec e s); [discriminate|].
    destruct (Z.ltb_spec 100000 (e - s)); [discriminate|].
    intros _. exists qs, qe, s, e. repeat split; auto; lia.
  - intros (qs & qe & s & e & -> & -> & Hs & He & R).
    replace (validateIndex (Num.Number_ (Num.Finite qs)) (lit "startIndex")) with Passes
      by (symmetry; apply validateIndex_passes; exists qs, s; repeat split; auto; lia).
    replace (validateIndex (Num.Number_ (Num.Finite qe)) (lit "endIndex")) with Passes
      by (symmetry; apply validateIndex_passes; exists qe, e; repeat split; auto; lia).
    rewrite (geb_integers qs qe s e Hs He).
    assert (Hd : Qeq (Qminus qe qs) (inject_Z (e - s))).
    { rewrite Hs, He. unfold Z.sub. rewrite inject_Z_plus, inject_Z_opp. reflexivity. }
    unfold Num.sub. rewrite (gtb_integer (Qminus qe qs) (e - s) 100000 Hd).
    destruct (Z.leb_spec e s); [lia|].
    destruct (Z.ltb_spec 100000 (e - s)); [lia|]. reflexivity.
Qed.

Lemma range_check (q lo hi : Q) :
  Num.ltb (Num.Finite q) (Num.Finite lo) || Num.gtb (Num.Finite q) (Num.Finite hi) = false
  <-> Qle lo q /\ Qle q hi.
Proof.
  unfold Num.gtb. simpl.
  rewrite orb_false_iff, !negb_false_iff, !Qle_bool_iff. tauto.
Qed.

Lemma validateColor_passes (value : Num.Arg) (componentName : jsstring) :
  validateColor value componentName = Passes <-> in_unit_or_NaN value.
Proof.
  unfold in_unit_or_NaN. split.
  - destruct value as [[q| | |]|]; try discriminate.
    + unfold validateColor.
      destruct (Num.ltb _ _ || Num.gtb _ _) eqn:E; [discriminate|].
      apply range_check in E. intros _. right. exists q. auto.
    + intros _. now left.
  - intros [-> | (q & -> & H)]; [reflexivity|].
    unfold validateColor. apply (range_check q (inject_Z 0) (inject_Z 1)) in H.
    unfold Num.of_Z. now rewrite H.
Qed.

(** [validateRGBColor] passes exactly the objects whose three components
    are each a number between 0 and 1, or NaN: NaN fails neither
    comparison. *)
Theorem validateRGBColor_passes (color : ColorArg) :
  validateRGBColor color = Passes <->
  exists red green blue,
    color = Color red green blue /\
    in_unit_or_NaN red /\ in_unit_or_NaN green /\ in_unit_or_NaN blue.
Proof.
  split.
  - destruct color as [red green blue|]; [|discriminate]. simpl.
    destruct (validateColor red _) eqn:Er; [|discriminate].
    destruct (validateColor green _) eqn:Eg; [|discriminate].
    intros Eb. exists red, green, blue.
    apply validateColor_passes in Er, Eg, Eb. auto.
  - intros (red & green & blue & -> & Hr & Hg & Hb). simpl.
    apply (validateColor_passes red (lit "red")) in Hr.
    apply (validateColor_passes green (lit "green")) in Hg.
    apply (validateColor_passes blue (lit "blue")) in Hb.
    now rewrite Hr, Hg.
Qed.

(** [validateFontSize] passes exactly the finite numbers from 6 to 400,
    NaN being caught by [Number.isFinite]; [validateLineSpacing], which
    has no such test, passes the numbers from 0.5 to 10 and NaN. *)
Theorem font_size_and_line_spacing_pass (a : Num.Arg) :
  (validateFontSize a = Passes <->
   exists q, a = Num.Number_ (Num.Finite q) /\ Qle (inject_Z 6) q /\ Qle q (inject_Z 400)) /\
  (validateLineSpacing a = Passes <->
   a = Num.Number_ Num.NaN \/
   exists q, a = Num.Number_ (Num.Finite q) /\ Qle (1 # 2) q /\ Qle q (inject_Z 10)).
Proof.
  split; split.
  - destruct a as [[q| | |]|]; try discriminate.
    unfold validateFontSize. cbn [Num.isFinite negb].
    destruct (Num.ltb _ _ || Num.gtb _ _) eqn:E; [discriminate|].
    apply range_check in E. intros _. exists q. auto.
  - intros (q & -> & H). unfold validateFontSize. cbn [Num.isFinite negb].
    apply range_check in H. unfold Num.of_Z. now rewrite H.
  - destruct a as [[q| | |]|]; try discriminate.
    + unfold validateLineSpacing.
      destruct (Num.ltb _ _ || Num.gtb _ _) eqn:E; [discriminate|].
      apply range_check in E. intros _. right. exists q. auto.
    + intros _. now left.
  - intros [-> | (q & -> & H)]; [reflexivity|].
    unfold validateLineSpacing. apply range_check in H.
    unfold Num.of_Z. now rewrite H.
Qed.

Lemma integer_range_check (q : Q) (z lo hi : Z) :
  Qeq q (inject_Z z) ->
  Num.ltb (Num.Finite q) (Num.of_Z lo) || Num.gtb (Num.Finite q) (Num.of_Z hi)
  = negb ((lo <=? z) && (z <=? hi))%Z.
Proof.
  intros Hq. rewrite (ltb_integer q z lo Hq), (gtb_integer q z hi Hq).
  destruct (Z.ltb_spec z lo), (Z.ltb_spec hi z), (Z.leb_spec lo z), (Z.leb_spec z hi);
    simpl; try reflexivity; lia.
Qed.

(** [validateTableDimensions] passes exactly the integer pairs with both
    numbers from 1 to 20, so a validated table has at most 400 cells. *)
Theorem validateTableDimensions_passes (rows columns : Num.Arg) :
  validateTableDimensions rows columns = Passes <->
  exists r c, integer_between 1 20 rows r /\ integer_between 1 20 columns c /\
              (r * c <= 400)%Z.
Proof.
  unfold integer_between. split.
  - intros H.
    destruct rows as [[qr| | |]|]; try discriminate H;
      destruct columns as [[qc| | |]|]; try discriminate H;
      unfold validateTableDimensions in H;
      destruct (Num.isInteger (Num.Finite qr)) eqn:Ir; try discriminate H.
    destruct (Num.isInteger (Num.Finite qc)) eqn:Ic; [|discriminate H].
    revert H.
    apply isInteger_spec in Ir as [r Hr]. apply isInteger_spec in Ic as [c Hc].
    cbn [negb orb].
    rewrite (integer_range_check qr r 1 20 Hr), (integer_range_check qc c 1 20 Hc).
    destruct (Z.leb_spec 1 r), (Z.leb_spec r 20); try discriminate.
    destruct (Z.leb_spec 1 c), (Z.leb_spec c 20); try discriminate.
    intros _. exists r, c. repeat split; eauto; try nia.
  - intros (r & c & (qr & -> & Hr & Rr) & (qc & -> & Hc & Rc) & _).
    unfold validateTableDimensions.
    replace (Num.isInteger (Num.Finite qr)) with true
      by (symmetry; apply isInteger_spec; eauto).
    replace (Num.isInteger (Num.Finite qc)) with true
      by (symmetry; apply isInteger_spec; eauto).
    cbn [negb orb].
    rewrite (integer_range_check qr r 1 20 Hr), (integer_range_check qc c 1 20 Hc).
    destruct (Z.leb_spec 1 r), (Z.leb_spec r 20); try lia.
    destruct (Z.leb_spec 1 c), (Z.leb_spec c 20); try lia.
    reflexivity.
Qed.

(** Every title [validateTitle] passes is a string of 1 to 255 code
    units, and [validateText] passes it at the default maximum length. *)
Theorem valid_title_is_valid_text (title : Validation.Value) :
  validateTitle title = Passes ->
  (exists s, title = Validation.Str s /\ 1 <= length s <= 255) /\
  validateText title DEFAULT_MAX_LENGTH = Passes.
Proof.
  destruct title as [s|]; [|discriminate]. unfold validateTitle, validateText.
  destruct (Nat.eqb_spec (length s) 0); [discriminate|].
  destruct (Nat.ltb_spec 255 (length s)); [discriminate|].
  intros _. split; [exists s; split; [reflexivity | lia]|].
  destruct (Nat.ltb_spec DEFAULT_MAX_LENGTH (length s)) as [Hlt|]; [|reflexivity].
  unfold DEFAULT_MAX_LENGTH in Hlt. lia.
Qed.

(** [validateDocumentId] passes exactly the strings of 10 to 100 code
    units taken from letters, digits, underscore and hyphen. *)
Theorem validateDocumentId_passes (documentId : Validation.Value) :
  validateDocumentId documentId = Passes <->
  exists s, documentId = Validation.Str s /\ 10 <= length s <= 100 /\
            forallb is_id_char s = true.
Proof.
  split.
  - destruct documentId as [s|]; [|discriminate]. unfold validateDocumentId, id_pattern.
    destruct (Nat.eqb_spec (length s) 0); [discriminate|].
    destruct (Nat.ltb_spec (length s) 10); [discriminate|].
    destruct (Nat.ltb_spec 100 (length s)); [discriminate|]. cbn [orb].
    destruct (Nat.ltb_spec 0 (length s)); [|lia]. cbn [andb].
    destruct (forallb is_id_char s) eqn:E; [|discriminate].
    intros _. exists s. repeat split; auto.
  - intros (s & -> & [Hlo Hhi] & Hc). unfold validateDocumentId, id_pattern.
    destruct (Nat.eqb_spec (length s) 0); [lia|].
    destruct (Nat.ltb_spec (length s) 10); [lia|].
    destruct (Nat.ltb_spec 100 (length s)); [lia|]. cbn [orb].
    destruct (Nat.ltb_spec 0 (length s)); [|lia]. now rewrite Hc.
Qed.

Lemma passes_id_chars (s : jsstring) :
  validateDocumentId (Validation.Str s) = Passes -> forallb is_id_char s = true.
Proof.
  unfold validateDocumentId, id_pattern.
  destruct (length s =? 0); [discriminate|].
  destruct ((length s <? 10) || (100 <? length s)); [discriminate|].
  destruct (0 <? length s); [|discriminate]. cbn [andb].
  destruct (forallb is_id_char s); [reflexivity | discriminate].
Qed.

Lemma filter_all {A : Type} (f : A -> bool) (l : list A) :
  forallb f l = true -> filter f l = l.
Proof.
  induction l as [|x l IH]; simpl; [reflexivity|].
  intros H. apply andb_prop in H as [Hx Hl]. rewrite Hx. f_equal. auto.
Qed.

Lemma special_false (c : N) :
  special c = false ->
  (c =? Validation.NUL)%N = false /\ (c =? Validation.APOSTROPHE)%N = false /\
  (c =? Validation.LESS)%N = false /\ (c =? Validation.GREATER)%N = false.
Proof.
  unfold special. intros H.
  apply orb_false_iff in H as [H H4]. apply orb_false_iff in H as [H H3].
  apply orb_false_iff in H as [H1 H2]. auto.
Qed.

Lemma plain_untouched (q : jsstring) :
  forallb (fun c => negb (special c)) q = true ->
  Validation.remove_nul (Validation.remove_angles (Validation.escape_quotes q)) = q.
Proof.
  intros H.
  assert (He : Validation.escape_quotes q = q).
  { induction q as [|c q IH]; [reflexivity|]. simpl in H |- *.
    apply andb_prop in H as [Hc Hq]. apply negb_true_iff, special_false in Hc.
    destruct Hc as (_ & -> & _). simpl. f_equal. auto. }
  rewrite He. unfold Validation.remove_nul, Validation.remove_angles.
  rewrite (filter_all _ q), (filter_all _ q); [reflexivity| |].
  - apply forallb_forall. intros c Hc. rewrite forallb_forall in H.
    specialize (H c Hc). apply negb_true_iff, special_false in H.
    destruct H as (-> & _). reflexivity.
  - apply forallb_forall. intros c Hc. rewrite forallb_forall in H.
    specialize (H c Hc). apply negb_true_iff, special_false in H.
    destruct H as (_ & _ & -> & ->). reflexivity.
Qed.

(** A query without quote, angle bracket or NUL is only normalized:
    [sanitizeSearchQuery] escapes and removes nothing else. *)
Theorem plain_query_is_only_normalized (normalize_NFC : jsstring -> jsstring)
        (q : jsstring) :
  forallb (fun c => negb (special c)) q = true ->
  Validation.sanitizeSearchQuery normalize_NFC (Validation.Str q) = normalize_NFC q.
Proof. intros H. simpl. now rewrite plain_untouched. Qed.

Lemma id_char_not_special (c : N) : is_id_char c = true -> special c = false.
Proof.
  intros H. unfold special, Validation.NUL, Validation.APOSTROPHE,
    Validation.LESS, Validation.GREATER.
  destruct (N.eqb_spec c 0) as [->|]; [discriminate H|].
  destruct (N.eqb_spec c 39) as [->|]; [discriminate H|].
  destruct (N.eqb_spec c 60) as [->|]; [discriminate H|].
  destruct (N.eqb_spec c 62) as [->|]; [discriminate H|].
  reflexivity.
Qed.

(** A document ID that [validateDocumentId] passes holds nothing the
    sanitizer of search queries would escape or remove. *)
Theorem valid_id_needs_no_sanitizing (normalize_NFC : jsstring -> jsstring)
        (s : jsstring) :
  validateDocumentId (Validation.Str s) = Passes ->
  Validation.sanitizeSearchQuery normalize_NFC (Validation.Str s) = normalize_NFC s /\
  ~ In Validation.APOSTROPHE s.
Proof.
  intros H. apply passes_id_chars in H as Hc.
  assert (Hs : forallb (fun c => negb (special c)) s = true).
  { apply forallb_forall. intros c Hin. rewrite forallb_forall in Hc.
    apply negb_true_iff, id_char_not_special, Hc, Hin. }
  split; [simpl; now rewrite plain_untouched|].
  intros Hin. rewrite forallb_forall in Hs. specialize (Hs _ Hin). discriminate.
Qed.

(** [mapApiError] always returns a message that is not empty; it looks
    at [error.status] only when [error.code] is absent or falsy; and it
    passes the error's own message on only under the code API_ERROR. *)
Theorem mapApiError_message_and_status (error : ApiError) :
  truthy (mapped_message (mapApiError error)) = true /\
  (truthy (code error) = true ->
   forall other,
     mapApiError {| code := code error; status := other;
                    error_message := error_message error |} = mapApiError error) /\
  (mapped_code (mapApiError error) <> API_ERROR ->
   forall other,
     mapApiError {| code := code error; status := status error;
                    error_message := other |} = mapApiError error).
Proof.
  repeat split.
  - unfold mapApiError.
    repeat match goal with |- context [if ?b then _ else _] => destruct b end;
      try reflexivity.
    unfold or_else. destruct (truthy (error_message error)) eqn:E; auto.
  - intros Hc other. unfold mapApiError, or_else. simpl. now rewrite Hc.
  - unfold mapApiError. simpl.
    repeat match goal with |- context [if ?b then _ else _] => destruct b end;
      simpl; congruence.
Qed.

(** ** The query of [search_documents] *)

Lemma word_starts_positive (s : jsstring) (c : N) :
  In c s -> is_space c = false -> 0 < word_starts true s.
Proof.
  induction s as [|x s IH]; simpl; [easy|].
  intros [-> | Hin] Hc.
  - rewrite Hc. lia.
  - destruct (is_space x); [auto | lia].
Qed.

Lemma trim_not_blank (s : jsstring) (c : N) :
  In c s -> is_space c = false -> 0 < length (trim s).
Proof.
  intros Hin Hc. pose proof (word_starts_positive s c Hin Hc) as H.
  rewrite <- word_starts_trim in H. destruct (trim s); simpl in *; lia.
Qed.

(** The query sent to Drive always begins with the filter on document
    type and trash; an empty query, a query of white space only and the
    query "*" add nothing to it. *)
Theorem searchQuery_keeps_filter (normalize_NFC : jsstring -> jsstring)
        (query : jsstring) :
  (exists clause, Drive.searchQuery normalize_NFC query = Drive.BASE_QUERY ++ clause) /\
  (forallb is_space query = true \/ query = lit "*" ->
   Drive.searchQuery normalize_NFC query = Drive.BASE_QUERY).
Proof.
  unfold Drive.searchQuery. split.
  - destruct (_ && _ && _); eauto. exists []. now rewrite app_nil_r.
  - intros [H | ->].
    + rewrite (trim_blank query H). simpl. now rewrite andb_false_r.
    + reflexivity.
Qed.

Section QueryClause.

Variable normalize_NFC : jsstring -> jsstring.
Hypothesis NFC_nil : normalize_NFC [] = [].
Hypothesis NFC_inert : forall a c b,
  c = Validation.BACKSLASH \/ c = Validation.APOSTROPHE ->
  normalize_NFC (a ++ c :: b) = normalize_NFC a ++ c :: normalize_NFC b.

(** The sanitizer leaves a backslash as it is: a query that ends in a
    backslash gives a clause whose closing quote comes right after that
    backslash. *)
Theorem trailing_backslash_meets_closing_quote (a : jsstring) :
  exists head,
    Drive.searchQuery normalize_NFC (a ++ [Validation.BACKSLASH]) =
    Drive.BASE_QUERY ++ lit " and name contains '" ++ head
    ++ [Validation.BACKSLASH; Validation.APOSTROPHE].
Proof.
  unfold Drive.searchQuery.
  assert (H1 : (0 <? length (a ++ [Validation.BACKSLASH])) = true)
    by (apply Nat.ltb_lt; rewrite length_app; simpl; lia).
  assert (H2 : (0 <? length (trim (a ++ [Validation.BACKSLASH]))) = true).
  { apply Nat.ltb_lt. apply trim_not_blank with (c := Validation.BACKSLASH).
    - apply in_or_app. right. now left.
    - reflexivity. }
  assert (H3 : Drive.string_eqb (a ++ [Validation.BACKSLASH]) (lit "*") = false).
  { unfold Drive.string_eqb. destruct (list_eq_dec _ _ _) as [E|]; [|reflexivity].
    apply (f_equal (@rev N)) in E. rewrite rev_app_distr in E. discriminate E. }
  rewrite H1, H2, H3. cbn [andb negb].
  exists (normalize_NFC (Validation.remove_nul (Validation.remove_angles
                                                 (Validation.escape_quotes a)))).
  do 2 f_equal. simpl Validation.sanitizeSearchQuery.
  unfold Validation.escape_quotes. rewrite flat_map_app.
  unfold Validation.remove_angles, Validation.remove_nul. rewrite !filter_app.
  simpl. rewrite NFC_inert, NFC_nil by auto.
  now rewrite <- app_assoc.
Qed.

End QueryClause.

(** ** [spell_check] *)

Lemma string_eqb_length (a b : jsstring) :
  length a <> length b -> Drive.string_eqb a b = false.
Proof.
  intros H. unfold Drive.string_eqb.
  destruct (list_eq_dec N.eq_dec a b) as [->|]; [congruence | reflexivity].
Qed.

Lemma length_removelast (w : jsstring) : w <> [] -> S (length (removelast w)) = length w.
Proof.
  intros H. destruct (exists_last H) as (l & x & ->).
  rewrite removelast_last, length_app. simpl. lia.
Qed.

(** For a word that is not empty none of the four variations is the word
    itself: the filter on the suggestions removes nothing. *)
Lemma wordSuggestions_four (w : jsstring) :
  w <> [] ->
  Spell.wordSuggestions w = [w ++ lit "s"; removelast w; w ++ lit "ed"; w ++ lit "ing"].
Proof.
  intros H. unfold Spell.wordSuggestions. pose proof (length_removelast w H) as L.
  cbn [filter].
  rewrite !string_eqb_length; [reflexivity | | | |];
    rewrite ?length_app; simpl; lia.
Qed.

Lemma words_go_word_chars (cur s : jsstring) :
  forallb Spell.is_word_char cur = true ->
  Forall (fun w => w <> [] /\ forallb Spell.is_word_char w = true) (Spell.words_go cur s).
Proof.
  revert cur; induction s as [|c s IH]; intros cur Hcur; simpl.
  - destruct cur; repeat constructor; [discriminate | assumption].
  - destruct (Spell.is_word_char c) eqn:E.
    + apply IH. rewrite forallb_app, Hcur. simpl. now rewrite E.
    + destruct cur; [now apply IH|].
      constructor; [split; [discriminate | assumption] | now apply IH].
Qed.

Section SpellCheck.

Variable toLowerCase : jsstring -> jsstring.

(** The loop over the words: what it pushes. *)
Lemma check_flags (words : list jsstring) :
  Spell.check words =
  map (fun w => {| Spell.word := w;
                   Spell.suggestions :=
                     [w ++ lit "s"; removelast w; w ++ lit "ed"; w ++ lit "ing"] |})
      (filter (fun w => negb (Spell.has Spell.commonWords w) && (2 <? length w)) words).
Proof.
  induction words as [|w words IH]; [reflexivity|]. cbn [Spell.check filter].
  destruct (negb (Spell.has Spell.commonWords w) && (2 <? length w)) eqn:E;
    [|exact IH].
  apply andb_prop in E as [_ E]. apply Nat.ltb_lt in E.
  assert (Hw : w <> []) by (destruct w; [simpl in E; lia | discriminate]).
  rewrite (wordSuggestions_four w Hw). cbn [length Nat.ltb Nat.leb map].
  now rewrite IH.
Qed.

(** [spell_check] reports, in the order of the text and once for each
    occurrence, exactly the words that are longer than two code units and
    not among the common words, each with the same four suggestions: the
    filter on the suggestions and the test that some are left never
    exclude anything. *)
Theorem spell_check_flags (text : jsstring) :
  Spell.found (Spell.spell_check toLowerCase text) =
  map (fun w => {| Spell.word := w;
                   Spell.suggestions :=
                     [w ++ lit "s"; removelast w; w ++ lit "ed"; w ++ lit "ing"] |})
      (filter (fun w => negb (Spell.has Spell.commonWords w) && (2 <? length w))
              (Spell.words_of (toLowerCase text))).
Proof.
  unfold Spell.spell_check. cbn [Spell.found].
  apply check_flags.
Qed.

(** The words [spell_check] looks at are never empty and consist of
    letters, digits and underscores only, so every reported word does. *)
Theorem spell_check_words (text : jsstring) (s : Spell.Suggestion) :
  In s (Spell.found (Spell.spell_check toLowerCase text)) ->
  2 < length (Spell.word s) /\
  forallb Spell.is_word_char (Spell.word s) = true /\
  Spell.has Spell.commonWords (Spell.word s) = false /\
  length (Spell.suggestions s) = 4 /\
  ~ In (Spell.word s) (Spell.suggestions s).
Proof.
  unfold Spell.spell_check. cbn [Spell.found]. rewrite check_flags. intros H.
  apply in_map_iff in H as (w & <- & Hw). apply filter_In in Hw as [Hin Hf].
  apply andb_prop in Hf as [Hc Hl]. apply Nat.ltb_lt in Hl.
  apply negb_true_iff in Hc. cbn [Spell.word Spell.suggestions].
  pose proof (words_go_word_chars [] (toLowerCase text) eq_refl) as Hall.
  rewrite Forall_forall in Hall. destruct (Hall w Hin) as [Hne Hch].
  repeat split; auto.
  pose proof (length_removelast w Hne) as L.
  intros [E | [E | [E | [E | []]]]]; apply (f_equal (@length N)) in E;
    rewrite ?length_app in E; simpl in E; lia.
Qed.

End SpellCheck.

(** ** Further concrete runs *)

Example words_of_sentence :
  Spell.words_of (lit "it's a re-run, ok_1") =
  [lit "it"; lit "s"; lit "a"; lit "re"; lit "run"; lit "ok_1"].
Proof. reflexivity. Qed.

Example spell_check_quick_fox :
  map Spell.word (Spell.found (Spell.spell_check toLowerCase_latin (lit "The quick fox is on it")))
  = [lit "quick"; lit "fox"].
Proof. reflexivity. Qed.

Example searchQuery_report :
  Drive.searchQuery normalize_latin (lit "Q3 'final' <draft>") =
  Drive.BASE_QUERY ++ lit " and name contains 'Q3 \'final\' draft'".
Proof. reflexivity. Qed.

Example validateIndex_fraction :
  validateIndex (Num.Number_ (Num.Finite (3 # 2))) (lit "index")
  = throw (lit "Index must be an integer") (Some (lit "index")).
Proof. reflexivity. Qed.

Example validateRange_reversed :
  validateRange (Num.Number_ (Num.of_Z 9)) (Num.Number_ (Num.of_Z 4))
  = throw (lit "startIndex must be less than endIndex") None.
Proof. reflexivity. Qed.

Example mapApiError_code_first :
  mapped_code (mapApiError {| code := PNumber 404; status := PNumber 500;
                              error_message := PAbsent |}) = DOCUMENT_NOT_FOUND /\
  mapped_code (mapApiError {| code := PAbsent; status := PNumber 429;
                              error_message := PAbsent |}) = QUOTA_EXCEEDED /\
  mapApiError {| code := PString (lit "ENOTFOUND"); status := PNumber 404;
                 error_message := PString [] |}
  = {| mapped_code := API_ERROR;
       mapped_message := PString (lit "An unexpected error occurred") |}.
Proof. repeat split. Qed.

Lemma no_occurrence_missed_witness :
  Replace.find_matches toLowerCase_latin 10 (lit "aaa") (lit "aa") true = Some [0] /\
  occurs (lit "aaa") (lit "aa") 1 /\
  exists m, In m [0] /\ m <= 1 /\ 1 < m + length (lit "aa").
Proof.
  split; [reflexivity|]. split; [split; [simpl; lia | reflexivity]|].
  apply (no_occurrence_missed toLowerCase_latin 10 (lit "aaa") (lit "aa") true [0] 1).
  - reflexivity.
  - split; [simpl; lia | reflexivity].
Defined.

Lemma nothing_sent_iff_absent_witness :
  let T := Doc.documentText (body_content (Some (one_run (lit "abc") 1))) in
  (Replace.no_match (lit "X") = Replace.no_match (lit "X") <->
   forall p, ~ occurs (Replace.haystack toLowerCase_latin T false)
                      (Replace.needle toLowerCase_latin (lit "X") false) p) /\
  (Replace.no_match (lit "X") = Replace.no_match (lit "X") ->
   @None (list Request) = None) /\
  (@None (list Request) <> None ->
   exists p, occurs (Replace.haystack toLowerCase_latin T false)
                    (Replace.needle toLowerCase_latin (lit "X") false) p).
Proof.
  apply (nothing_sent_iff_absent toLowerCase_latin 10 (Some (one_run (lit "abc") 1))
           (lit "X") (lit "Y") false true accept).
  - lia.
  - reflexivity.
Defined.

Lemma search_reports_first_matches_witness :
  let T := lit "ab ab ab ab" in
  let Q := lit "ab" in
  Replace.find_matches toLowerCase_latin 10 T Q true = Some [0; 3; 6; 9] /\
  Find.find_matches toLowerCase_latin 10 T Q true (Num.Finite (5 # 2)) =
  Some (map (Find.match_at T Q) [0; 3; 6]).
Proof.
  split; [reflexivity|].
  apply (search_reports_first_matches toLowerCase_latin 10 10
           (lit "ab ab ab ab") (lit "ab") true (Num.Finite (5 # 2)) [0; 3; 6; 9]).
  - reflexivity.
  - reflexivity.
  - apply Nat.ltb_lt. reflexivity.
Defined.

Lemma search_matches_bounded_and_exact_witness :
  let T := lit "ab ab ab ab" in
  let Q := lit "ab" in
  let ms := [Find.match_at T Q 0; Find.match_at T Q 3; Find.match_at T Q 6] in
  Find.find_matches toLowerCase_latin 10 T Q true (Num.Finite (5 # 2)) = Some ms /\
  length ms <= 3 /\
  (forall m, In m ms -> Find.endIndex m = Find.startIndex m + length Q) /\
  (forall m, In m ms ->
     Find.endIndex m <= length T /\ slice T (Find.startIndex m) (Find.endIndex m) = Q).
Proof.
  intros T Q ms. split; [reflexivity|].
  destruct (search_matches_bounded_and_exact toLowerCase_latin 10 T Q true
              (Num.Finite (5 # 2)) ms eq_refl) as (H1 & H2 & H3).
  split; [exact (H1 3 eq_refl)|]. split; [exact H2 | exact (H3 eq_refl)].
Defined.

Lemma count_words_separated_witness :
  Stats.count_words (lit "one two" ++ 10%N :: lit "three") =
  Stats.count_words (lit "one two") + Stats.count_words (lit "three").
Proof.
  apply (count_words_separated (lit "one two") (lit "three") 10%N).
  reflexivity.
Defined.

Lemma word_count_sums_paragraphs_witness :
  let content := one_run (lit "hello world" ++ [10%N]) 1
                 ++ one_run (lit "again" ++ [10%N]) 13 in
  Stats.wordCount (Stats.get_word_count (Resolved (Some content))) =
  list_sum (map (fun element =>
                   match Doc.paragraph element with
                   | Some p => Stats.count_words (Doc.paragraph_text p)
                   | None => 0
                   end) content).
Proof.
  intros content. apply (word_count_sums_paragraphs content).
  intros element p [<- | [<- | []]] [= <-]; right.
  - exists (lit "hello world"), 10%N. split; reflexivity.
  - exists (lit "again"), 10%N. split; reflexivity.
Defined.

Lemma valid_title_is_valid_text_witness :
  (exists s, Validation.Str (lit "Quarterly report") = Validation.Str s
             /\ 1 <= length s <= 255) /\
  validateText (Validation.Str (lit "Quarterly report")) DEFAULT_MAX_LENGTH = Passes.
Proof.
  apply (valid_title_is_valid_text (Validation.Str (lit "Quarterly report"))).
  reflexivity.
Defined.

Lemma plain_query_is_only_normalized_witness :
  Validation.sanitizeSearchQuery normalize_latin (Validation.Str (lit "report 2024"))
  = normalize_latin (lit "report 2024").
Proof.
  apply (plain_query_is_only_normalized normalize_latin (lit "report 2024")).
  reflexivity.
Defined.

Lemma valid_id_needs_no_sanitizing_witness :
  Validation.sanitizeSearchQuery normalize_latin (Validation.Str (lit "1A2b3C4d5E_f-9"))
  = normalize_latin (lit "1A2b3C4d5E_f-9") /\
  ~ In Validation.APOSTROPHE (lit "1A2b3C4d5E_f-9").
Proof.
  apply (valid_id_needs_no_sanitizing normalize_latin (lit "1A2b3C4d5E_f-9")).
  reflexivity.
Defined.

Lemma trailing_backslash_meets_closing_quote_witness :
  exists head,
    Drive.searchQuery normalize_latin (lit "notes" ++ [Validation.BACKSLASH]) =
    Drive.BASE_QUERY ++ lit " and name contains '" ++ head
    ++ [Validation.BACKSLASH; Validation.APOSTROPHE].
Proof.
  apply (trailing_backslash_meets_closing_quote normalize_latin).
  - reflexivity.
  - intros a c b _. reflexivity.
Defined.

Lemma spell_check_words_witness :
  let s := {| Spell.word := lit "quick";
              Spell.suggestions := [lit "quicks"; lit "quic"; lit "quicked";
                                    lit "quicking"] |} in
  2 < length (Spell.word s) /\
  forallb Spell.is_word_char (Spell.word s) = true /\
  Spell.has Spell.commonWords (Spell.word s) = false /\
  length (Spell.suggestions s) = 4 /\
  ~ In (Spell.word s) (Spell.suggestions s).
Proof.
  intros s.
  apply (spell_check_words toLowerCase_latin (lit "The quick fox") s).
  left. reflexivity.
Defined.
